(** * Adaptive float32 encoding: a shallow embedding of [encoding.py]

    The Python class [Encoding] splits the 23 mantissa bits of an IEEE-754
    float32 between a primary and a residual integer stream.  The split is
    derived once, in [__init__], from a Python [float] (binary64) called
    [aggression]; [encode], [decode] and [decode_low] are bit manipulations
    on [torch.int32] tensors.

    Modelling choices, all read off the source:
    - a Python [float] is a primitive binary64 [float]; the built-in
      [round] with one argument is round-half-to-even to an integer;
    - a [torch.int32] element is a [Z] in [-2^31, 2^31); the only operation
      of the code that can leave that range is [<<], whose wrap-around is
      written out ([wrap32]);
    - a float32 element is its 32-bit pattern, a [Z] in [0, 2^32);
      [.view(torch.int32)] and [.view(torch.float32)] reinterpret the bits;
    - a flattened tensor is a list; a binary operator between two tensors
      follows torch's broadcasting rule for one-dimensional operands;
    - a Python exception is an error result. *)

From Stdlib Require Import ZArith Floats Lia List Bool.
Import ListNotations.

Local Open Scope Z_scope.

(** ** Exceptions and results *)

Inductive exn : Type :=
| AssertionError   (* a failed [assert] *)
| RuntimeError     (* torch: operand sizes do not match *)
| ValueError       (* [round] of a NaN *)
| OverflowError.   (* [round] of an infinity *)

Inductive result (A : Type) : Type :=
| Ok (a : A)
| Raise (e : exn).

Arguments Ok {A} a.
Arguments Raise {A} e.

Definition bind {A B : Type} (r : result A) (k : A -> result B) : result B :=
  match r with
  | Ok a => k a
  | Raise e => Raise e
  end.

Notation "x <- r ;; k" := (bind r (fun x => k))
  (at level 61, r at next level, right associativity).

(** ** Python floats and [round] *)

(** Round-half-to-even of the non-negative dyadic number [m * 2^e]. *)
Definition round_half_even (m e : Z) : Z :=
  if 0 <=? e then m * 2 ^ e
  else
    let d := 2 ^ (- e) in
    let q := m / d in
    let r := m mod d in
    match 2 * r ?= d with
    | Lt => q
    | Gt => q + 1
    | Eq => if Z.even q then q else q + 1
    end.

(** [round(x)] on the value a binary64 float denotes. *)
Definition round_SF (x : spec_float) : result Z :=
  match x with
  | S754_zero _ => Ok 0
  | S754_finite s m e => Ok (cond_Zopp s (round_half_even (Zpos m) e))
  | S754_infinity _ => Raise OverflowError
  | S754_nan => Raise ValueError
  end.

Definition py_round (x : float) : result Z := round_SF (Prim2SF x).

(** The binary64 values of the constants [1] and [23] of [__init__]. *)
Definition SF_one : spec_float := S754_finite false 4503599627370496 (-52).
Definition SF_23 : spec_float := S754_finite false 6473924464345088 (-48).

(** ** 32-bit integers and bit patterns *)

(** The value an integer takes when stored in an [int32]. *)
Definition wrap32 (x : Z) : Z := (x + 2 ^ 31) mod 2 ^ 32 - 2 ^ 31.

(** [x << n] and [x >> n] on an [int32] element; [>>] is arithmetic. *)
Definition shl32 (x n : Z) : Z := wrap32 (Z.shiftl x n).
Definition shr32 (x n : Z) : Z := Z.shiftr x n.

(** A float32 element is held as its bit pattern. *)
Definition is_float32 (b : Z) : Prop := 0 <= b < 2 ^ 32.

(** [.view(torch.int32)] of a float32 element, [.view(torch.float32)] of
    an int32 element and [.to(torch.int32)] of an integer element. *)
Definition view_int32 (b : Z) : Z := wrap32 b.
Definition view_float32 (x : Z) : Z := x mod 2 ^ 32.
Definition to_int32 (x : Z) : Z := wrap32 x.

(** ** Flattened tensors *)

Definition tensor : Type := list Z.

Definition t_shl (t : tensor) (n : Z) : tensor := map (fun x => shl32 x n) t.
Definition t_shr (t : tensor) (n : Z) : tensor := map (fun x => shr32 x n) t.

(** [t & k] for a Python integer [k]. *)
Definition t_and (t : tensor) (k : Z) : tensor := map (fun x => Z.land x k) t.

Definition zip_or (xs ys : tensor) : tensor :=
  map (fun xy => Z.lor (fst xy) (snd xy)) (combine xs ys).

(** [xs | ys] for two tensors: element-wise when the sizes agree, a
    one-element operand is broadcast, any other pair of sizes raises. *)
Definition t_or (xs ys : tensor) : result tensor :=
  if (length xs =? length ys)%nat then Ok (zip_or xs ys)
  else if (length ys =? 1)%nat then Ok (map (fun x => Z.lor x (hd 0 ys)) xs)
  else if (length xs =? 1)%nat then Ok (map (fun y => Z.lor (hd 0 xs) y) ys)
  else Raise RuntimeError.

(** ** The class [Encoding] *)

Record Encoding : Type := {
  aggression : float;
  m_bits : Z;
  primary_m_bits : Z;
  residual_m_bits : Z
}.

(** [Encoding.__init__(self, aggression)]. *)
Definition new (a : float) : result Encoding :=
  if ((0 <=? a) && (a <=? 1))%float then
    p <- py_round ((1 - a) * 23)%float ;;
    Ok {| aggression := a;
          m_bits := 23;
          primary_m_bits := p;
          residual_m_bits := 23 - p |}
  else Raise AssertionError.

(** The default value of the parameter [aggression]. *)
Definition default_aggression : float := 0.5%float.

(** [Encoding(...)]: the argument may be left out. *)
Definition Encoding_init (a : option float) : result Encoding :=
  match a with
  | Some x => new x
  | None => new default_aggression
  end.

Section Methods.

Variable self : Encoding.

(** [Encoding.encode]. *)
Definition encode (tensor_fp32 : tensor) : result (tensor * tensor) :=
  let raw := map view_int32 tensor_fp32 in
  let sign := t_and (t_shr raw 31) 1 in
  let exponent := t_and (t_shr raw 23) 255 in
  let mantissa := t_and raw 8388607 in
  let mantissa_primary := t_shr mantissa (residual_m_bits self) in
  let mantissa_residual :=
    t_and mantissa (Z.shiftl 1 (residual_m_bits self) - 1) in
  se <- t_or (t_shl sign (8 + primary_m_bits self))
             (t_shl exponent (primary_m_bits self)) ;;
  primary <- t_or se mantissa_primary ;;
  Ok (primary, mantissa_residual).

(** [Encoding.decode]. *)
Definition decode (primary_stream residual_stream : tensor) : result tensor :=
  let primary := map to_int32 primary_stream in
  let residual := map to_int32 residual_stream in
  let mantissa_primary :=
    t_and primary (Z.shiftl 1 (primary_m_bits self) - 1) in
  let exponent := t_and (t_shr primary (primary_m_bits self)) 255 in
  let sign := t_and (t_shr primary (8 + primary_m_bits self)) 1 in
  mantissa <- t_or (t_shl mantissa_primary (residual_m_bits self)) residual ;;
  se <- t_or (t_shl sign 31) (t_shl exponent 23) ;;
  raw <- t_or se mantissa ;;
  Ok (map view_float32 raw).

(** [Encoding.decode_low]. *)
Definition decode_low (primary_stream : tensor) : result tensor :=
  let primary := map to_int32 primary_stream in
  let mantissa_primary :=
    t_and primary (Z.shiftl 1 (primary_m_bits self) - 1) in
  let exponent := t_and (t_shr primary (primary_m_bits self)) 255 in
  let sign := t_and (t_shr primary (8 + primary_m_bits self)) 1 in
  let mantissa := t_shl mantissa_primary (residual_m_bits self) in
  se <- t_or (t_shl sign 31) (t_shl exponent 23) ;;
  raw <- t_or se mantissa ;;
  Ok (map view_float32 raw).

End Methods.

(** A method call on an [Encoding] object, and the object together with
    what the call produced.  None of the three methods assigns to an
    attribute of [self]. *)
Inductive call : Type :=
| CallEncode (tensor_fp32 : tensor)
| CallDecode (primary_stream residual_stream : tensor)
| CallDecodeLow (primary_stream : tensor).

Inductive outcome : Type :=
| Streams (r : result (tensor * tensor))
| Floats (r : result tensor).

Definition invoke (self : Encoding) (c : call) : Encoding * outcome :=
  match c with
  | CallEncode t => (self, Streams (encode self t))
  | CallDecode p r => (self, Floats (decode self p r))
  | CallDecodeLow p => (self, Floats (decode_low self p))
  end.

Fixpoint run (self : Encoding) (cs : list call) : Encoding :=
  match cs with
  | [] => self
  | c :: cs' => run (fst (invoke self c)) cs'
  end.

(** ** The example of [main.py] *)

(** The float32 bit patterns of [1.5, -2.75, 0.0, 100.125]. *)
Definition main_tensor : tensor := [1069547520; 3224371200; 0; 1120419840].

(** ** Element-wise reading of the three methods

    What [encode], [decode] and [decode_low] compute at one position of
    their streams, for a split of [p] primary and [r] residual bits. *)

Definition primary1 (p r b : Z) : Z :=
  Z.lor (Z.lor (shl32 (Z.land (shr32 (view_int32 b) 31) 1) (8 + p))
               (shl32 (Z.land (shr32 (view_int32 b) 23) 255) p))
        (shr32 (Z.land (view_int32 b) 8388607) r).

Definition residual1 (r b : Z) : Z :=
  Z.land (Z.land (view_int32 b) 8388607) (Z.shiftl 1 r - 1).

Definition sign_exponent1 (p x : Z) : Z :=
  Z.lor (shl32 (Z.land (shr32 (to_int32 x) (8 + p)) 1) 31)
        (shl32 (Z.land (shr32 (to_int32 x) p) 255) 23).

Definition mantissa_high1 (p r x : Z) : Z :=
  shl32 (Z.land (to_int32 x) (Z.shiftl 1 p - 1)) r.

Definition decode1 (p r x y : Z) : Z :=
  view_float32 (Z.lor (sign_exponent1 p x) (Z.lor (mantissa_high1 p r x) (to_int32 y))).

Definition decode_low1 (p r x : Z) : Z :=
  view_float32 (Z.lor (sign_exponent1 p x) (mantissa_high1 p r x)).

(** The assertion of [__init__] as a boolean. *)
Definition in_range (a : float) : bool := ((0 <=? a) && (a <=? 1))%float.

(** The codecs built from the aggressions 0.0, 0.5 and 1.0. *)
Definition enc_lossless : Encoding :=
  {| aggression := 0%float; m_bits := 23;
     primary_m_bits := 23; residual_m_bits := 0 |}.

Definition enc_half : Encoding :=
  {| aggression := 0.5%float; m_bits := 23;
     primary_m_bits := 12; residual_m_bits := 11 |}.

Definition enc_coarse : Encoding :=
  {| aggression := 1%float; m_bits := 23;
     primary_m_bits := 0; residual_m_bits := 23 |}.

(** The binary64 values closest to -0.1 and 1.1, as Python reads the
    literals. *)
Definition minus_tenth : float := (-0x1.999999999999ap-4)%float.
Definition eleven_tenths : float := 0x1.199999999999ap+0%float.

(** * Verification *)

(** ** The example of [main.py], evaluated *)

Example main_encode :
  (enc <- new 0.5%float ;; encode enc main_tensor)
  = Ok ([522240; 1574400; 0; 547080], [0; 0; 0; 0]).
Proof. vm_compute. reflexivity. Qed.

Example main_decode :
  (enc <- new 0.5%float ;;
   pr <- encode enc main_tensor ;;
   decode enc (fst pr) (snd pr)) = Ok main_tensor.
Proof. vm_compute. reflexivity. Qed.

Example main_decode_low :
  (enc <- new 0.5%float ;;
   pr <- encode enc main_tensor ;;
   decode_low enc (fst pr)) = Ok main_tensor.
Proof. vm_compute. reflexivity. Qed.

(** ** Binary64 rounding: the split stays within the mantissa *)

Section Binary64.

Lemma digits2_pos_bounds (m : positive) :
  2 ^ (Zpos (digits2_pos m) - 1) <= Zpos m < 2 ^ Zpos (digits2_pos m).
Proof.
  induction m as [m IH | m IH | ]; cbn [digits2_pos].
  - rewrite Pos2Z.inj_succ.
    replace (Z.succ (Zpos (digits2_pos m)) - 1) with (Z.succ (Zpos (digits2_pos m) - 1)) by lia.
    rewrite !Z.pow_succ_r by lia. lia.
  - rewrite Pos2Z.inj_succ.
    replace (Z.succ (Zpos (digits2_pos m)) - 1) with (Z.succ (Zpos (digits2_pos m) - 1)) by lia.
    rewrite !Z.pow_succ_r by lia. lia.
  - cbn. lia.
Qed.

Lemma shr_1_m (mrs : shr_record) :
  0 <= shr_m mrs -> 0 <= shr_m (shr_1 mrs) /\ 2 * shr_m (shr_1 mrs) <= shr_m mrs.
Proof.
  destruct mrs as [m r s]; cbn [shr_m]. intros Hm.
  destruct m as [ | [p | p | ] | p]; cbn [shr_1 shr_m]; lia.
Qed.

Lemma iter_shr_1_m (p : positive) : forall mrs : shr_record,
  0 <= shr_m mrs ->
  0 <= shr_m (iter_pos shr_1 p mrs) /\
  shr_m (iter_pos shr_1 p mrs) * 2 ^ Zpos p <= shr_m mrs.
Proof.
  induction p as [p IH | p IH | ]; intros mrs Hm; cbn [iter_pos].
  - destruct (shr_1_m mrs Hm) as [H1 H1'].
    destruct (IH _ H1) as [H2 H2'].
    destruct (IH _ H2) as [H3 H3'].
    split; [assumption|].
    rewrite (Pos2Z.inj_xI p), Z.pow_add_r, Z.pow_twice_r by lia.
    assert (0 < 2 ^ Zpos p) by (apply Z.pow_pos_nonneg; lia).
    nia.
  - destruct (IH _ Hm) as [H2 H2'].
    destruct (IH _ H2) as [H3 H3'].
    split; [assumption|].
    rewrite (Pos2Z.inj_xO p), Z.pow_twice_r by lia.
    assert (0 < 2 ^ Zpos p) by (apply Z.pow_pos_nonneg; lia).
    nia.
  - destruct (shr_1_m mrs Hm). change (2 ^ 1) with 2. lia.
Qed.

Lemma shr_m_bound (mrs : shr_record) (e n : Z) :
  0 <= shr_m mrs ->
  let r := shr mrs e n in
  snd r = e + Z.max 0 n /\
  0 <= shr_m (fst r) /\
  shr_m (fst r) * 2 ^ Z.max 0 n <= shr_m mrs /\
  (n <= 0 -> fst r = mrs).
Proof.
  intros Hm. destruct n as [ | p | p]; cbn [shr fst snd].
  - rewrite Z.max_l by lia. change (2 ^ 0) with 1. repeat split; lia.
  - destruct (iter_shr_1_m p mrs Hm). rewrite Z.max_r by lia. repeat split; lia.
  - rewrite Z.max_l by lia. change (2 ^ 0) with 1. repeat split; lia.
Qed.

Lemma round_nearest_even_bound (m : Z) (l : location) :
  m <= round_nearest_even m l <= m + 1.
Proof.
  destruct l as [ | [ | | ]]; cbn [round_nearest_even]; try lia.
  destruct (Z.even m); lia.
Qed.

(** The rounded result of a positive dyadic: zero, or a positive float at
    most one unit of the cut above the exact value. *)
Lemma binary_round_aux_bound (mx : positive) (ex : Z) :
  let n := fexp prec emax (Zdigits2 (Zpos mx) + ex) - ex in
  binary_round_aux prec emax false (Zpos mx) ex loc_Exact = S754_zero false \/
  exists (m : positive) (e : Z),
    binary_round_aux prec emax false (Zpos mx) ex loc_Exact
    = (if e <=? emax - prec then S754_finite false m e else S754_infinity false)
    /\ ex <= e
    /\ Zpos m * 2 ^ (e - ex) <= Zpos mx + (if 0 <? n then 2 ^ n else 0).
Proof.
  intros n. unfold binary_round_aux, shr_fexp. fold n.
  change (shr_record_of_loc (Zpos mx) loc_Exact)
    with {| shr_m := Zpos mx; shr_r := false; shr_s := false |}.
  set (mrs0 := {| shr_m := Zpos mx; shr_r := false; shr_s := false |}).
  assert (H0 : 0 <= shr_m mrs0) by (cbn; lia).
  pose proof (shr_m_bound mrs0 ex n H0) as H1. cbv zeta in H1.
  destruct (shr mrs0 ex n) as [mrs' e'] eqn:E1. cbn [fst snd] in H1.
  destruct H1 as (He' & Hm'0 & Hm' & Hid).
  set (m1 := round_nearest_even (shr_m mrs') (loc_of_shr_record mrs')).
  pose proof (round_nearest_even_bound (shr_m mrs') (loc_of_shr_record mrs')) as Hm1.
  fold m1 in Hm1.
  set (n2 := fexp prec emax (Zdigits2 m1 + e') - e').
  change (shr_record_of_loc m1 loc_Exact)
    with {| shr_m := m1; shr_r := false; shr_s := false |}.
  set (mrs1 := {| shr_m := m1; shr_r := false; shr_s := false |}).
  assert (H1 : 0 <= shr_m mrs1) by (cbn; lia).
  pose proof (shr_m_bound mrs1 e' n2 H1) as H2. cbv zeta in H2.
  destruct (shr mrs1 e' n2) as [mrs'' e''] eqn:E2. cbn [fst snd] in H2.
  destruct H2 as (He'' & Hm''0 & Hm'' & _).
  cbn [shr_m] in Hm''.
  destruct (shr_m mrs'') as [ | m | m] eqn:Em; [left; reflexivity | right | lia].
  exists m, e''. split; [reflexivity|]. split; [lia|].
  unfold mrs1 in Hm''. unfold mrs0 in Hm'. cbn [shr_m] in Hm', Hm''.
  assert (Hp2 : 0 < 2 ^ Z.max 0 n2) by (apply Z.pow_pos_nonneg; lia).
  assert (Hp1 : 0 < 2 ^ Z.max 0 n) by (apply Z.pow_pos_nonneg; lia).
  replace (e'' - ex) with (Z.max 0 n2 + Z.max 0 n) by lia.
  rewrite Z.pow_add_r by lia.
  destruct (Z.ltb_spec 0 n) as [Hn | Hn].
  - replace (Z.max 0 n) with n in * by lia.
    apply Z.le_trans with (m1 * 2 ^ n).
    + rewrite Z.mul_assoc. apply Z.mul_le_mono_nonneg_r; lia.
    + apply Z.le_trans with ((shr_m mrs' + 1) * 2 ^ n).
      * apply Z.mul_le_mono_nonneg_r; lia.
      * lia.
  - assert (Hs : mrs' = mrs0) by (apply Hid; lia).
    assert (Hm1' : m1 = Zpos mx) by (unfold m1; rewrite Hs; reflexivity).
    replace (Z.max 0 n) with 0 in * by lia. change (2 ^ 0) with 1 in *. nia.
Qed.

Lemma fexp_eq (k : Z) : fexp prec emax k = Z.max (k - 53) (-1074).
Proof. reflexivity. Qed.

Lemma iter_xO_Z (m d : positive) :
  Zpos (Pos.iter xO m d) = Zpos m * 2 ^ Zpos d.
Proof.
  induction d as [ | d IH] using Pos.peano_ind.
  - cbn [Pos.iter]. rewrite (Pos2Z.inj_xO m). change (2 ^ 1) with 2. lia.
  - rewrite Pos.iter_succ, (Pos2Z.inj_xO (Pos.iter xO m d)), IH.
    rewrite Pos2Z.inj_succ, Z.pow_succ_r by lia. lia.
Qed.

(** Away from the subnormal range the rounded result exceeds the exact
    value by a relative [2^-52] at most. *)
Lemma binary_round_aux_rel (mz : positive) (ez : Z) :
  -1074 <= ez ->
  binary_round_aux prec emax false (Zpos mz) ez loc_Exact = S754_zero false \/
  exists (m : positive) (e : Z),
    binary_round_aux prec emax false (Zpos mz) ez loc_Exact
    = (if e <=? emax - prec then S754_finite false m e else S754_infinity false)
    /\ ez <= e
    /\ 2 ^ 52 * (Zpos m * 2 ^ (e - ez)) <= (2 ^ 52 + 1) * Zpos mz.
Proof.
  intros Hez.
  destruct (binary_round_aux_bound mz ez) as [H | (m & e & H & He & Hb)];
    [left; assumption | right].
  exists m, e. split; [assumption|]. split; [assumption|].
  rewrite fexp_eq in Hb. cbn [Zdigits2] in Hb.
  pose proof (digits2_pos_bounds mz) as Hd.
  set (k := Zpos (digits2_pos mz)) in *.
  destruct (Z.ltb_spec 0 (Z.max (k + ez - 53) (-1074) - ez)) as [Hn | Hn]; [|lia].
  replace (Z.max (k + ez - 53) (-1074) - ez) with (k - 53) in * by lia.
  assert (Hp : 2 ^ (k - 1) = 2 ^ 52 * 2 ^ (k - 53)).
  { rewrite <- Z.pow_add_r by lia. f_equal; lia. }
  lia.
Qed.

Lemma binary_round_rel (mx : positive) (ex : Z) :
  -1074 <= ex ->
  binary_round prec emax false mx ex = S754_zero false \/
  exists (m : positive) (e ez : Z),
    binary_round prec emax false mx ex
    = (if e <=? emax - prec then S754_finite false m e else S754_infinity false)
    /\ -1074 <= ez <= ex /\ ez <= e
    /\ 2 ^ 52 * (Zpos m * 2 ^ (e - ez)) <= (2 ^ 52 + 1) * (Zpos mx * 2 ^ (ex - ez)).
Proof.
  intros Hex. unfold binary_round, shl_align.
  set (f := fexp prec emax (Zpos (digits2_pos mx) + ex)).
  assert (Hf : -1074 <= f) by (unfold f; rewrite fexp_eq; lia).
  destruct (f - ex) as [ | d | d] eqn:Ed.
  - destruct (binary_round_aux_rel mx ex Hex) as [H | (m & e & H & He & Hb)];
      [left; assumption | right].
    exists m, e, ex. rewrite Z.sub_diag, Z.mul_1_r. repeat split; (assumption || lia).
  - destruct (binary_round_aux_rel mx ex Hex) as [H | (m & e & H & He & Hb)];
      [left; assumption | right].
    exists m, e, ex. rewrite Z.sub_diag, Z.mul_1_r. repeat split; (assumption || lia).
  - destruct (binary_round_aux_rel (Pos.iter xO mx d) f Hf) as [H | (m & e & H & He & Hb)];
      [left; assumption | right].
    exists m, e, f. rewrite iter_xO_Z in Hb.
    replace (ex - f) with (Zpos d) by lia.
    repeat split; (assumption || lia).
Qed.

(** A non-negative dyadic below [c + 1/2] rounds into [0, c]. *)
Lemma round_half_even_below (m e K c : Z) :
  0 <= m -> 0 <= K -> 0 <= e + K ->
  2 * (m * 2 ^ (e + K)) < (2 * c + 1) * 2 ^ K ->
  0 <= round_half_even m e <= c.
Proof.
  intros Hm HK HeK Hlt. unfold round_half_even.
  assert (HpK : 0 < 2 ^ K) by (apply Z.pow_pos_nonneg; lia).
  destruct (Z.leb_spec 0 e) as [He | He].
  - assert (Hpe : 0 < 2 ^ e) by (apply Z.pow_pos_nonneg; lia).
    rewrite Z.pow_add_r in Hlt by lia. nia.
  - cbv zeta.
    assert (Hd : 0 < 2 ^ (- e)) by (apply Z.pow_pos_nonneg; lia).
    assert (HW : 0 < 2 ^ (e + K)) by (apply Z.pow_pos_nonneg; lia).
    assert (HKd : 2 ^ K = 2 ^ (e + K) * 2 ^ (- e)).
    { rewrite <- Z.pow_add_r by lia. f_equal; lia. }
    rewrite HKd in Hlt.
    assert (Hlt' : 2 * m < (2 * c + 1) * 2 ^ (- e)) by nia.
    pose proof (Z.div_mod m (2 ^ (- e)) ltac:(lia)) as Hdm.
    pose proof (Z.mod_pos_bound m (2 ^ (- e)) Hd) as Hr.
    assert (Hq : 0 <= m / 2 ^ (- e)) by (apply Z.div_pos; lia).
    set (d := 2 ^ (- e)) in *. set (q := m / d) in *. set (r := m mod d) in *.
    destruct (Z.compare_spec (2 * r) d) as [Hc | Hc | Hc].
    + destruct (Z.even q); nia.
    + nia.
    + nia.
Qed.

Lemma SF64sub_one_bound (sa : spec_float) :
  valid_binary sa = true ->
  SFleb (S754_zero false) sa = true ->
  SFleb sa SF_one = true ->
  SF64sub SF_one sa = S754_zero false \/
  SF64sub SF_one sa = SF_one \/
  exists (m : positive) (e : Z),
    SF64sub SF_one sa = S754_finite false m e
    /\ -1074 <= e <= 0
    /\ 2 ^ 52 * Zpos m < (2 ^ 52 + 1) * 2 ^ (- e).
Proof.
  intros Hv H0 H1.
  destruct sa as [s | s | | s m e].
  - right; left. destruct s; reflexivity.
  - destruct s; discriminate.
  - discriminate.
  - destruct s; [discriminate|].
    unfold SFleb, SFcompare, SF_one in H1.
    cbn [valid_binary] in Hv. unfold bounded, canonical_mantissa in Hv.
    apply andb_true_iff in Hv. destruct Hv as [Hc _].
    apply Z.eqb_eq in Hc. rewrite fexp_eq in Hc.
    pose proof (digits2_pos_bounds m) as Hd.
    set (k := Zpos (digits2_pos m)) in *.
    destruct (Z.compare_spec e (-52)) as [He | He | He]; [ | | discriminate].
    + (* aggression is 1.0 *)
      left. subst e.
      assert (Hk : k = 53) by lia.
      assert (Hm : (m <= 4503599627370496)%positive).
      { unfold Pos.le. rewrite Pos.compare_cont_spec in H1.
        destruct (m ?= 4503599627370496)%positive; cbn [Pos.switch_Eq] in H1; congruence. }
      assert (E52 : 2 ^ (k - 1) = 4503599627370496) by (rewrite Hk; reflexivity).
      assert (Hm' : m = 4503599627370496%positive).
      { apply Pos2Z.inj. apply Pos2Z.pos_le_pos in Hm. rewrite E52 in Hd.
        clear - Hm Hd. lia. }
      subst m. vm_compute. reflexivity.
    + clear H1 H0.
      assert (Hk : k <= 53) by lia.
      assert (Hlo : -1074 <= e) by lia.
      assert (Hmlt : Zpos m < 2 ^ (- e)).
      { apply Z.lt_le_trans with (2 ^ k); [lia|].
        apply Z.pow_le_mono_r; lia. }
      assert (Hs1 : Zpos (fst (shl_align 4503599627370496 (-52) e)) = 2 ^ (- e)).
      { unfold shl_align. destruct (e - -52) as [ | d | d] eqn:Ed; try lia.
        cbn [fst]. rewrite iter_xO_Z.
        assert (E52 : Zpos 4503599627370496 = 2 ^ 52) by reflexivity.
        rewrite E52.
        rewrite <- Z.pow_add_r by lia. f_equal; lia. }
      assert (Hs2 : fst (shl_align m e e) = m).
      { unfold shl_align. rewrite Z.sub_diag. reflexivity. }
      unfold SF64sub, SFsub, SF_one.
      rewrite Z.min_r by lia.
      cbn [cond_Zopp].
      rewrite Hs1, Hs2.
      destruct (2 ^ (- e) - Zpos m) as [ | M | M] eqn:EM; try lia.
      cbn [binary_normalize].
      destruct (binary_round_rel M e Hlo) as [H | (m' & e' & ez & H & Hez & He' & Hb)].
      * left. exact H.
      * right; right.
        assert (HA : 0 < 2 ^ (e - ez)) by (apply Z.pow_pos_nonneg; lia).
        assert (HT : 2 ^ (- e) * 2 ^ (e - ez) = 2 ^ (- ez)).
        { rewrite <- Z.pow_add_r by lia. f_equal; lia. }
        assert (Hlt : 2 ^ 52 * (Zpos m' * 2 ^ (e' - ez)) < (2 ^ 52 + 1) * 2 ^ (- ez)).
        { rewrite <- HT. nia. }
        assert (Hz : 0 < 2 ^ (- ez)) by (rewrite <- HT; nia).
        assert (He0 : e' <= 0).
        { destruct (Z.le_gt_cases e' 0) as [Hle | Hgt]; [assumption | exfalso].
          assert (Hez0 : ez <= 0).
          { destruct (Z.le_gt_cases ez 0) as [Hle | Hgt']; [assumption | exfalso].
            rewrite Z.pow_neg_r in Hz by lia. lia. }
          assert (Hsplit : 2 ^ (e' - ez) = 2 ^ e' * 2 ^ (- ez)).
          { rewrite <- Z.pow_add_r by lia. f_equal; lia. }
          assert (H2 : 2 ^ 1 <= 2 ^ e') by (apply Z.pow_le_mono_r; lia).
          change (2 ^ 1) with 2 in H2.
          rewrite Hsplit in Hlt. nia. }
        exists m', e'.
        replace (e' <=? emax - prec) with true in H
          by (symmetry; apply Z.leb_le; change (emax - prec) with 971; lia).
        split; [exact H|]. split; [lia|].
        assert (HB : 0 < 2 ^ (e' - ez)) by (apply Z.pow_pos_nonneg; lia).
        assert (Hsplit : 2 ^ (- ez) = 2 ^ (- e') * 2 ^ (e' - ez)).
        { rewrite <- Z.pow_add_r by lia. f_equal; lia. }
        rewrite Hsplit in Hlt. nia.
Qed.

Lemma SF64mul_23_round (m : positive) (e : Z) :
  -1074 <= e <= 0 ->
  2 ^ 52 * Zpos m < (2 ^ 52 + 1) * 2 ^ (- e) ->
  exists p, round_SF (SF64mul (S754_finite false m e) SF_23) = Ok p /\ 0 <= p <= 23.
Proof.
  intros He Hm. unfold SF64mul, SFmul, SF_23. cbn [xorb].
  set (c := 6473924464345088%positive).
  assert (Hc : Zpos c = 23 * 2 ^ 48) by reflexivity.
  assert (H48 : 2 ^ 48 = 281474976710656) by reflexivity.
  assert (H52 : 2 ^ 52 = 4503599627370496) by reflexivity.
  set (K := 48 - e).
  assert (HK : 2 ^ K = 2 ^ 48 * 2 ^ (- e)).
  { rewrite <- Z.pow_add_r by lia. f_equal; lia. }
  assert (HT : 0 < 2 ^ (- e)) by (apply Z.pow_pos_nonneg; lia).
  destruct (binary_round_aux_bound (m * c) (e + -48)) as [H | (mv & ev & H & Hev & Hb)].
  - rewrite H. exists 0. split; [reflexivity | lia].
  - rewrite H. clear H.
    rewrite fexp_eq in Hb. cbn [Zdigits2] in Hb.
    pose proof (digits2_pos_bounds (m * c)) as Hd.
    set (k := Zpos (digits2_pos (m * c))) in *. clearbody k.
    rewrite Pos2Z.inj_mul, Hc in Hb, Hd.
    replace (ev - (e + -48)) with (ev + K) in Hb by (unfold K; lia).
    set (X := Zpos mv * 2 ^ (ev + K)) in *.
    assert (HG : 2 * X < 47 * 2 ^ K).
    { destruct (Z.ltb_spec 0 (Z.max (k + (e + -48) - 53) (-1074) - (e + -48))) as [Hn | Hn].
      - destruct (Z.le_gt_cases (-1074) (k + (e + -48) - 53)) as [Hbig | Hsmall].
        + replace (Z.max (k + (e + -48) - 53) (-1074) - (e + -48)) with (k - 53) in * by lia.
          assert (Hp : 2 ^ (k - 1) = 2 ^ 52 * 2 ^ (k - 53)).
          { rewrite <- Z.pow_add_r by lia. f_equal; lia. }
          rewrite HK, H48, H52 in *. lia.
        + replace (Z.max (k + (e + -48) - 53) (-1074) - (e + -48)) with (K - 1074) in *
            by (unfold K; lia).
          assert (Hp : 2 ^ 2 * 2 ^ (K - 1074) <= 2 ^ K).
          { rewrite <- Z.pow_add_r by lia. apply Z.pow_le_mono_r; lia. }
          change (2 ^ 2) with 4 in Hp.
          rewrite HK, H48, H52 in *. lia.
      - rewrite HK, H48, H52 in *. lia. }
    assert (HpK : 0 < 2 ^ K) by (apply Z.pow_pos_nonneg; unfold K; lia).
    assert (Hev5 : ev <= 5).
    { destruct (Z.le_gt_cases ev 5) as [Hle | Hgt]; [assumption | exfalso].
      assert (Hs : 2 ^ (ev + K) = 2 ^ ev * 2 ^ K).
      { apply Z.pow_add_r; unfold K; lia. }
      assert (H6 : 2 ^ 6 <= 2 ^ ev) by (apply Z.pow_le_mono_r; lia).
      change (2 ^ 6) with 64 in H6.
      unfold X in HG. rewrite Hs in HG. nia. }
    replace (ev <=? emax - prec) with true
      by (symmetry; apply Z.leb_le; change (emax - prec) with 971; lia).
    cbn [round_SF cond_Zopp].
    eexists. split; [reflexivity|].
    apply (round_half_even_below (Zpos mv) ev K 23); unfold K; try lia.
    exact HG.
Qed.

Lemma round_split_SF (sa : spec_float) :
  valid_binary sa = true ->
  SFleb (S754_zero false) sa = true ->
  SFleb sa SF_one = true ->
  exists p,
    round_SF (SF64mul (SF64sub SF_one sa) SF_23) = Ok p /\ 0 <= p <= 23.
Proof.
  intros Hv H0 H1.
  destruct (SF64sub_one_bound sa Hv H0 H1) as [E | [E | (m & e & E & He & Hm)]];
    rewrite E.
  - exists 0. split; [reflexivity | lia].
  - exists 23. split; [vm_compute; reflexivity | lia].
  - apply SF64mul_23_round; assumption.
Qed.

Lemma round_split (a : float) :
  (0 <=? a)%float = true -> (a <=? 1)%float = true ->
  exists p, py_round ((1 - a) * 23)%float = Ok p /\ 0 <= p <= 23.
Proof.
  intros H0 H1. unfold py_round.
  rewrite mul_spec, sub_spec.
  rewrite leb_spec in H0, H1.
  exact (round_split_SF (Prim2SF a) (Prim2SF_valid a) H0 H1).
Qed.

End Binary64.

(** ** Bits of 32-bit integers *)

Lemma wrap32_range (x : Z) : - 2 ^ 31 <= wrap32 x < 2 ^ 31.
Proof.
  unfold wrap32.
  pose proof (Z.mod_pos_bound (x + 2 ^ 31) (2 ^ 32) ltac:(reflexivity)).
  change (2 ^ 32) with (2 * 2 ^ 31) in *. lia.
Qed.

Lemma wrap32_mod (x : Z) : wrap32 x mod 2 ^ 32 = x mod 2 ^ 32.
Proof.
  unfold wrap32.
  rewrite Zminus_mod, Zmod_mod, <- Zminus_mod.
  f_equal; lia.
Qed.

Lemma wrap32_small (x : Z) : - 2 ^ 31 <= x < 2 ^ 31 -> wrap32 x = x.
Proof.
  intros H. unfold wrap32. rewrite Z.mod_small; [lia|].
  change (2 ^ 32) with (2 * 2 ^ 31). lia.
Qed.

(** Above bit 31 an [int32] repeats its sign bit. *)
Lemma int32_high_bits (y i : Z) :
  - 2 ^ 31 <= y < 2 ^ 31 -> 31 <= i -> Z.testbit y i = Z.testbit y 31.
Proof.
  intros Hy Hi.
  destruct (Z.le_gt_cases 0 y) as [Hpos | Hneg].
  - assert (Hb : forall j, 31 <= j -> Z.testbit y j = false).
    { intros j Hj. destruct (Z.eq_dec y 0) as [-> | Hnz]; [apply Z.testbit_0_l|].
      apply Z.bits_above_log2; [lia|].
      apply Z.log2_lt_pow2; [lia|].
      apply Z.lt_le_trans with (2 ^ 31); [lia|].
      apply Z.pow_le_mono_r; lia. }
    rewrite (Hb i), (Hb 31); auto; lia.
  - assert (Hb : forall j, 31 <= j -> Z.testbit y j = true).
    { intros j Hj. apply Z.bits_above_log2_neg; [lia|].
      destruct (Z.eq_dec y (-1)) as [-> | Hnz]; [cbn; lia|].
      apply Z.log2_lt_pow2; [lia|].
      apply Z.lt_le_trans with (2 ^ 31); [lia|].
      apply Z.pow_le_mono_r; lia. }
    rewrite (Hb i), (Hb 31); auto; lia.
Qed.

Lemma testbit_wrap32 (x i : Z) :
  0 <= i -> Z.testbit (wrap32 x) i = Z.testbit x (Z.min i 31).
Proof.
  intros Hi.
  assert (Hlow : forall j, 0 <= j < 32 -> Z.testbit (wrap32 x) j = Z.testbit x j).
  { intros j Hj.
    rewrite <- (Z.mod_pow2_bits_low (wrap32 x) 32 j) by lia.
    rewrite wrap32_mod. apply Z.mod_pow2_bits_low; lia. }
  destruct (Z.le_gt_cases i 31).
  - rewrite Z.min_l by lia. apply Hlow; lia.
  - rewrite Z.min_r by lia.
    rewrite (int32_high_bits (wrap32 x) i (wrap32_range x)) by lia.
    apply Hlow; lia.
Qed.

Lemma testbit_mask (r i : Z) :
  0 <= r -> Z.testbit (Z.shiftl 1 r - 1) i = (0 <=? i) && (i <? r).
Proof.
  intros Hr. rewrite Z.shiftl_1_l, Z.sub_1_r, <- Z.ones_equiv.
  apply Z.testbit_ones; assumption.
Qed.

Lemma testbit_view_float32 (x i : Z) :
  Z.testbit (view_float32 x) i = (i <? 32) && Z.testbit x i.
Proof.
  unfold view_float32.
  destruct (Z.ltb_spec i 32).
  - destruct (Z.le_gt_cases 0 i).
    + apply Z.mod_pow2_bits_low; lia.
    + rewrite !Z.testbit_neg_r by lia. reflexivity.
  - apply Z.mod_pow2_bits_high; lia.
Qed.

Lemma testbit_float32_high (b i : Z) :
  is_float32 b -> 32 <= i -> Z.testbit b i = false.
Proof.
  intros Hb Hi. rewrite <- (Z.mod_small b (2 ^ 32)) by exact Hb.
  apply Z.mod_pow2_bits_high; lia.
Qed.

Lemma shiftl_bit (a n m : Z) :
  Z.testbit (Z.shiftl a n) m = negb (m <? 0) && Z.testbit a (m - n).
Proof.
  destruct (Z.ltb_spec m 0); [apply Z.testbit_neg_r; lia | apply Z.shiftl_spec; lia].
Qed.

Lemma shiftr_bit (a n m : Z) :
  Z.testbit (Z.shiftr a n) m = negb (m <? 0) && Z.testbit a (m + n).
Proof.
  destruct (Z.ltb_spec m 0); [apply Z.testbit_neg_r; lia | apply Z.shiftr_spec; lia].
Qed.

Lemma wrap32_bit (x i : Z) :
  Z.testbit (wrap32 x) i = negb (i <? 0) && Z.testbit x (Z.min i 31).
Proof.
  destruct (Z.ltb_spec i 0); [apply Z.testbit_neg_r; lia | apply testbit_wrap32; lia].
Qed.

Lemma ones_bit (n i : Z) :
  0 <= n -> Z.testbit (Z.ones n) i = negb (i <? 0) && (i <? n).
Proof.
  intros Hn. destruct (Z.ltb_spec i 0).
  - apply Z.testbit_neg_r; lia.
  - rewrite Z.testbit_ones by lia. destruct (Z.leb_spec 0 i); [reflexivity | lia].
Qed.

Lemma mask_bit (n i : Z) :
  0 <= n -> Z.testbit (Z.shiftl 1 n - 1) i = negb (i <? 0) && (i <? n).
Proof.
  intros Hn. rewrite Z.shiftl_1_l, Z.sub_1_r, <- Z.ones_equiv. apply ones_bit, Hn.
Qed.

Lemma bit_of_1 (i : Z) : Z.testbit 1 i = negb (i <? 0) && (i <? 1).
Proof. apply (ones_bit 1 i); lia. Qed.

Lemma bit_of_255 (i : Z) : Z.testbit 255 i = negb (i <? 0) && (i <? 8).
Proof. apply (ones_bit 8 i); lia. Qed.

Lemma bit_of_8388607 (i : Z) : Z.testbit 8388607 i = negb (i <? 0) && (i <? 23).
Proof. apply (ones_bit 23 i); lia. Qed.

Ltac unfold_ops :=
  unfold decode1, decode_low1, sign_exponent1, mantissa_high1, primary1, residual1,
    shl32, shr32, view_int32, to_int32.

Ltac to_bits :=
  repeat first
    [ rewrite Z.lor_spec | rewrite Z.land_spec | rewrite testbit_view_float32
    | rewrite wrap32_bit | rewrite shiftl_bit | rewrite shiftr_bit
    | rewrite mask_bit by lia
    | rewrite bit_of_1 | rewrite bit_of_255 | rewrite bit_of_8388607 ].

Ltac decide_cmp :=
  repeat (match goal with
    | |- context [Z.min ?a ?b] =>
        first [ rewrite (Z.min_l a b) by lia | rewrite (Z.min_r a b) by lia ]
    | |- context [?a <? ?b] =>
        first [ rewrite (proj2 (Z.ltb_lt a b)) by lia
              | rewrite (proj2 (Z.ltb_ge a b)) by lia ]
    end; cbn [andb orb negb]).

Ltac bool_simpl :=
  rewrite ?Bool.andb_true_r, ?Bool.andb_false_r, ?Bool.orb_false_r, ?Bool.orb_true_r;
  cbn [andb orb negb].

Ltac same_bit :=
  first [ reflexivity
        | f_equal; lia
        | rewrite Z.testbit_neg_r by lia; reflexivity ].

Lemma round_trip1 (p r b : Z) :
  0 <= p <= 23 -> r = 23 - p -> is_float32 b ->
  decode1 p r (primary1 p r b) (residual1 r b) = b.
Proof.
  intros Hp Hr Hb. apply Z.bits_inj'. intros i Hi.
  destruct (Z.le_gt_cases 32 i) as [Hhi | Hlo].
  - rewrite (testbit_float32_high b i Hb Hhi).
    unfold decode1. rewrite testbit_view_float32.
    rewrite (proj2 (Z.ltb_ge i 32)) by lia. reflexivity.
  - unfold_ops.
    to_bits.
    assert (Hc : i < r \/ r <= i < 23 \/ 23 <= i < 31 \/ i = 31) by lia.
    destruct Hc as [Hc | [Hc | [Hc | Hc]]]; decide_cmp; bool_simpl; same_bit.
Qed.

(** ** One stream position *)

Lemma bounded_by_bits (x n : Z) :
  0 <= n -> (forall i, n <= i -> Z.testbit x i = false) -> 0 <= x < 2 ^ n.
Proof.
  intros Hn H.
  assert (E : x = x mod 2 ^ n).
  { apply Z.bits_inj'. intros i Hi.
    destruct (Z.lt_ge_cases i n).
    - rewrite Z.mod_pow2_bits_low by lia. reflexivity.
    - rewrite Z.mod_pow2_bits_high by lia. apply H; lia. }
  rewrite E. apply Z.mod_pos_bound. apply Z.pow_pos_nonneg; lia.
Qed.

Lemma low_bits_agree (x1 x2 n j : Z) :
  x1 mod 2 ^ n = x2 mod 2 ^ n -> 0 <= j < n ->
  Z.testbit x1 j = Z.testbit x2 j.
Proof.
  intros E Hj.
  rewrite <- (Z.mod_pow2_bits_low x1 n j), <- (Z.mod_pow2_bits_low x2 n j) by lia.
  rewrite E. reflexivity.
Qed.

(** With no residual bits the residual element is zero. *)
Lemma residual1_zero (b : Z) : residual1 0 b = 0.
Proof. unfold residual1. apply Z.land_0_r. Qed.

Lemma residual1_range (r b : Z) : 0 <= r -> 0 <= residual1 r b < 2 ^ r.
Proof.
  intros Hr. apply bounded_by_bits; [assumption|]. intros i Hi.
  unfold residual1. to_bits. decide_cmp. bool_simpl. reflexivity.
Qed.

Lemma decode_low1_lossless (b : Z) :
  is_float32 b -> decode_low1 23 0 (primary1 23 0 b) = b.
Proof.
  intros Hb. apply Z.bits_inj'. intros i Hi.
  destruct (Z.le_gt_cases 32 i) as [Hhi | Hlo].
  - rewrite (testbit_float32_high b i Hb Hhi).
    unfold decode_low1. rewrite testbit_view_float32.
    rewrite (proj2 (Z.ltb_ge i 32)) by lia. reflexivity.
  - unfold_ops.
    to_bits.
    assert (Hc : i < 23 \/ 23 <= i < 31 \/ i = 31) by lia.
    destruct Hc as [Hc | [Hc | Hc]]; decide_cmp; bool_simpl; same_bit.
Qed.

(** With no primary mantissa bits the primary element is sign and exponent. *)
Lemma primary1_sign_exponent (b : Z) :
  is_float32 b ->
  primary1 0 23 b
  = Z.lor (Z.shiftl (Z.land (Z.shiftr b 31) 1) 8) (Z.land (Z.shiftr b 23) 255).
Proof.
  intros Hb. apply Z.bits_inj'. intros i Hi.
  unfold_ops.
  to_bits.
  assert (Hc : i < 8 \/ i = 8 \/ 8 < i) by lia.
  destruct Hc as [Hc | [Hc | Hc]]; decide_cmp; bool_simpl; try same_bit.
Qed.

Lemma primary1_shiftr (b : Z) :
  is_float32 b -> primary1 0 23 b = Z.shiftr b 23.
Proof.
  intros Hb. apply Z.bits_inj'. intros i Hi.
  unfold_ops.
  to_bits.
  assert (Hc : i < 8 \/ i = 8 \/ 8 < i) by lia.
  destruct Hc as [Hc | [Hc | Hc]]; decide_cmp; bool_simpl; try same_bit.
  symmetry. apply testbit_float32_high; [assumption | lia].
Qed.

(** The low-precision decoding has no bit set below the split. *)
Lemma decode_low1_low_bits (p r x i : Z) :
  0 <= p <= 23 -> r = 23 - p -> 0 <= i < r ->
  Z.testbit (Z.lor (sign_exponent1 p x) (mantissa_high1 p r x)) i = false.
Proof.
  intros Hp Hr Hi. unfold_ops.
  to_bits. decide_cmp. bool_simpl. same_bit.
Qed.

Lemma decode1_residual (p r x y : Z) :
  0 <= p <= 23 -> r = 23 - p -> 0 <= y < 2 ^ r ->
  decode_low1 p r x = decode1 p r x y <-> y = 0.
Proof.
  intros Hp Hr Hy. split.
  - intros E. apply Z.bits_inj'. intros i Hi. rewrite Z.bits_0.
    destruct (Z.lt_ge_cases i r) as [Hlt | Hge].
    + assert (Ei : Z.testbit (decode_low1 p r x) i = Z.testbit (decode1 p r x y) i)
        by (rewrite E; reflexivity).
      unfold decode_low1, decode1 in Ei.
      rewrite !testbit_view_float32 in Ei.
      rewrite (proj2 (Z.ltb_lt i 32)) in Ei by lia. cbn [andb] in Ei.
      rewrite Z.lor_assoc, (Z.lor_spec _ (to_int32 y)) in Ei.
      rewrite (decode_low1_low_bits p r x i Hp Hr) in Ei by lia.
      cbn [orb] in Ei. unfold to_int32 in Ei. rewrite wrap32_bit in Ei.
      rewrite (proj2 (Z.ltb_ge i 0)), Z.min_l in Ei by lia.
      symmetry. exact Ei.
    + rewrite <- (Z.mod_small y (2 ^ r)) by exact Hy.
      apply Z.mod_pow2_bits_high; lia.
  - intros ->. unfold decode1, decode_low1, to_int32.
    rewrite (wrap32_small 0) by lia. rewrite Z.lor_0_r. reflexivity.
Qed.

Lemma primary1_pattern (p r b : Z) :
  0 <= p <= 23 -> r = 23 - p ->
  0 <= primary1 p r b mod 2 ^ 32 < 2 ^ (9 + p).
Proof.
  intros Hp Hr. apply bounded_by_bits; [lia|]. intros i Hi.
  change (primary1 p r b mod 2 ^ 32) with (view_float32 (primary1 p r b)).
  unfold_ops.
  to_bits.
  destruct (Z.lt_ge_cases i 32); decide_cmp; bool_simpl; try same_bit.
Qed.

Lemma primary1_range (p r b : Z) :
  0 <= p < 23 -> r = 23 - p ->
  0 <= primary1 p r b < 2 ^ (9 + p).
Proof.
  intros Hp Hr. apply bounded_by_bits; [lia|]. intros i Hi.
  unfold_ops.
  to_bits. decide_cmp; bool_simpl; try same_bit.
Qed.

Lemma primary1_full (b : Z) : is_float32 b -> primary1 23 0 b = view_int32 b.
Proof.
  intros Hb. apply Z.bits_inj'. intros i Hi.
  unfold_ops.
  to_bits.
  assert (Hc : i < 23 \/ 23 <= i < 31 \/ 31 <= i) by lia.
  destruct Hc as [Hc | [Hc | Hc]]; decide_cmp; bool_simpl; try same_bit.
Qed.

Lemma low_bits_determine (p r x1 x2 : Z) :
  0 <= p <= 23 ->
  x1 mod 2 ^ (9 + p) = x2 mod 2 ^ (9 + p) ->
  sign_exponent1 p x1 = sign_exponent1 p x2 /\
  mantissa_high1 p r x1 = mantissa_high1 p r x2.
Proof.
  intros Hp E.
  split; apply Z.bits_inj'; intros i Hi; unfold_ops; to_bits.
  - assert (Hc : i < 23 \/ 23 <= i < 31 \/ 31 <= i) by lia.
    destruct Hc as [Hc | [Hc | Hc]]; decide_cmp; bool_simpl; try reflexivity;
      apply (low_bits_agree x1 x2 (9 + p)); (assumption || lia).
  - assert (Hc : Z.min i 31 - r < 0 \/ 0 <= Z.min i 31 - r < p \/ p <= Z.min i 31 - r)
      by lia.
    destruct Hc as [Hc | [Hc | Hc]]; decide_cmp; bool_simpl; try reflexivity.
    apply (low_bits_agree x1 x2 (9 + p)); (assumption || lia).
Qed.

(** ** Streams *)

Lemma t_or_same (xs ys : tensor) :
  length xs = length ys -> t_or xs ys = Ok (zip_or xs ys).
Proof. intros E. unfold t_or. rewrite E, Nat.eqb_refl. reflexivity. Qed.

Lemma zip_or_map {A : Type} (f g : A -> Z) (l : list A) :
  zip_or (map f l) (map g l) = map (fun x => Z.lor (f x) (g x)) l.
Proof.
  unfold zip_or. induction l as [ | x l IH]; cbn; [reflexivity | f_equal; exact IH].
Qed.

Lemma zip_or_combine (f : Z -> Z) (g : Z * Z -> Z) (xs ys : list Z) :
  length xs = length ys ->
  zip_or (map f xs) (map g (combine xs ys))
  = map (fun xy => Z.lor (f (fst xy)) (g xy)) (combine xs ys).
Proof.
  unfold zip_or. revert ys.
  induction xs as [ | x xs IH]; intros [ | y ys] E; cbn in *; try reflexivity; try discriminate.
  f_equal. apply IH. congruence.
Qed.

Lemma zip_or_map2 (f g : Z -> Z) (xs ys : list Z) :
  zip_or (map f xs) (map g ys)
  = map (fun xy => Z.lor (f (fst xy)) (g (snd xy))) (combine xs ys).
Proof.
  unfold zip_or. revert ys.
  induction xs as [ | x xs IH]; intros [ | y ys]; cbn; try reflexivity.
  f_equal. apply IH.
Qed.

(** [encode] works position by position and never raises. *)
Lemma encode_elementwise (self : Encoding) (t : tensor) :
  encode self t
  = Ok (map (primary1 (primary_m_bits self) (residual_m_bits self)) t,
        map (residual1 (residual_m_bits self)) t).
Proof.
  unfold encode, t_and, t_shr, t_shl. rewrite !map_map.
  rewrite t_or_same by (rewrite !length_map; reflexivity).
  rewrite zip_or_map. cbn [bind].
  rewrite t_or_same by (rewrite !length_map; reflexivity).
  rewrite zip_or_map. cbn [bind]. reflexivity.
Qed.

Lemma decode_low_elementwise (self : Encoding) (ps : tensor) :
  decode_low self ps
  = Ok (map (decode_low1 (primary_m_bits self) (residual_m_bits self)) ps).
Proof.
  unfold decode_low, t_and, t_shr, t_shl. rewrite !map_map.
  rewrite t_or_same by (rewrite !length_map; reflexivity).
  rewrite zip_or_map. cbn [bind].
  rewrite t_or_same by (rewrite !length_map; reflexivity).
  rewrite zip_or_map. cbn [bind]. rewrite map_map. reflexivity.
Qed.

(** [decode] on streams of one length. *)
Lemma decode_elementwise (self : Encoding) (ps rs : tensor) :
  length ps = length rs ->
  decode self ps rs
  = Ok (map (fun xy => decode1 (primary_m_bits self) (residual_m_bits self)
                         (fst xy) (snd xy))
            (combine ps rs)).
Proof.
  intros E. unfold decode, t_and, t_shr, t_shl. rewrite !map_map.
  rewrite t_or_same by (rewrite !length_map; exact E).
  rewrite zip_or_map2. cbn [bind].
  rewrite t_or_same by (rewrite !length_map; reflexivity).
  rewrite zip_or_map. cbn [bind].
  rewrite t_or_same by (rewrite !length_map, length_combine; lia).
  rewrite zip_or_combine by exact E. cbn [bind].
  rewrite map_map. reflexivity.
Qed.

(** [decode] with a one-element residual stream: it is broadcast. *)
Lemma decode_broadcast_residual (self : Encoding) (ps : tensor) (y : Z) :
  decode self ps [y]
  = Ok (map (fun x => decode1 (primary_m_bits self) (residual_m_bits self) x y) ps).
Proof.
  destruct (Nat.eq_dec (length ps) 1) as [E | N].
  - rewrite decode_elementwise by exact E.
    destruct ps as [ | x [ | x' ps]]; try discriminate. reflexivity.
  - unfold decode, t_and, t_shr, t_shl. rewrite !map_map.
    unfold t_or at 1. rewrite !length_map. cbn [length].
    destruct (Nat.eqb_spec (length ps) 1) as [E' | _]; [contradiction|].
    cbn [Nat.eqb bind hd map].
    rewrite t_or_same by (rewrite !length_map; reflexivity).
    rewrite zip_or_map. cbn [bind].
    rewrite t_or_same by (rewrite !length_map; reflexivity).
    rewrite map_map, zip_or_map. cbn [bind]. rewrite map_map. reflexivity.
Qed.

(** [decode] with a one-element primary stream: it is broadcast. *)
Lemma decode_broadcast_primary (self : Encoding) (x : Z) (rs : tensor) :
  decode self [x] rs
  = Ok (map (fun y => decode1 (primary_m_bits self) (residual_m_bits self) x y) rs).
Proof.
  destruct (Nat.eq_dec (length rs) 1) as [E | N].
  - rewrite decode_elementwise by (symmetry; exact E).
    destruct rs as [ | y [ | y' rs]]; try discriminate. reflexivity.
  - unfold decode, t_and, t_shr, t_shl. cbn [map].
    unfold t_or at 1. rewrite !length_map. cbn [length].
    destruct (Nat.eqb_spec 1 (length rs)) as [E' | _]; [congruence|].
    destruct (Nat.eqb_spec (length rs) 1) as [E' | _]; [contradiction|].
    cbn [Nat.eqb bind hd].
    cbn [t_or length Nat.eqb zip_or combine map bind].
    unfold t_or. rewrite !length_map. cbn [length].
    destruct (Nat.eqb_spec 1 (length rs)) as [E' | _]; [congruence|].
    destruct (Nat.eqb_spec (length rs) 1) as [E' | _]; [contradiction|].
    cbn [Nat.eqb bind hd]. rewrite !map_map. reflexivity.
Qed.

(** [decode] on streams of two different lengths, neither of them 1. *)
Lemma decode_mismatch (self : Encoding) (ps rs : tensor) :
  length ps <> length rs -> length ps <> 1%nat -> length rs <> 1%nat ->
  decode self ps rs = Raise RuntimeError.
Proof.
  intros N N1 N2. unfold decode, t_and, t_shr, t_shl.
  unfold t_or at 1. rewrite !length_map.
  destruct (Nat.eqb_spec (length ps) (length rs)) as [E' | _]; [contradiction|].
  destruct (Nat.eqb_spec (length rs) 1) as [E' | _]; [contradiction|].
  destruct (Nat.eqb_spec (length ps) 1) as [E' | _]; [contradiction|].
  reflexivity.
Qed.

(** ** Construction *)

Lemma new_in_range (a : float) :
  in_range a = true ->
  exists p, 0 <= p <= 23 /\
    new a = Ok {| aggression := a; m_bits := 23;
                  primary_m_bits := p; residual_m_bits := 23 - p |}.
Proof.
  intros H. unfold new. fold (in_range a). rewrite H.
  unfold in_range in H. apply andb_true_iff in H. destruct H as [H0 H1].
  destruct (round_split a H0 H1) as (p & Hr & Hp).
  exists p. split; [exact Hp|]. rewrite Hr. reflexivity.
Qed.

Lemma new_inv (a : float) (enc : Encoding) :
  new a = Ok enc ->
  in_range a = true /\ aggression enc = a /\ m_bits enc = 23 /\
  0 <= primary_m_bits enc <= 23 /\
  residual_m_bits enc = 23 - primary_m_bits enc.
Proof.
  intros H. destruct (in_range a) eqn:E.
  - destruct (new_in_range a E) as (p & Hp & Hn).
    rewrite Hn in H. injection H as <-. cbn. repeat split; lia.
  - unfold new in H. fold (in_range a) in H. rewrite E in H. discriminate.
Qed.

Lemma new_out_of_range (a : float) :
  in_range a = false -> new a = Raise AssertionError.
Proof. intros H. unfold new. fold (in_range a). rewrite H. reflexivity. Qed.

Lemma run_self (self : Encoding) (cs : list call) : run self cs = self.
Proof.
  induction cs as [ | c cs IH]; [reflexivity|].
  cbn [run]. destruct c; cbn [invoke fst]; exact IH.
Qed.

Lemma float32_check (b : Z) :
  ((0 <=? b) && (b <? 2 ^ 32))%bool = true -> is_float32 b.
Proof.
  intros H. apply andb_true_iff in H. destruct H as [H0 H1].
  split; [apply Z.leb_le, H0 | apply Z.ltb_lt, H1].
Qed.

Lemma round_trip_map (p r : Z) (l : list Z) :
  0 <= p <= 23 -> r = 23 - p -> Forall is_float32 l ->
  map (fun xy => decode1 p r (fst xy) (snd xy))
      (combine (map (primary1 p r) l) (map (residual1 r) l)) = l.
Proof.
  intros Hp Hr Hl.
  induction Hl as [ | b l Hb Hl IH]; cbn [map combine fst snd]; [reflexivity|].
  rewrite round_trip1 by assumption. f_equal. exact IH.
Qed.

(** ** Properties of the specification *)

(** C1. For every aggression in [0.0, 1.0] and every sequence of float32
    bit patterns, the codec is constructed, [encode] returns a primary and
    a residual stream, and [decode] of the two returns the input, bit for
    bit. *)
Theorem C1_round_trip_exact (a : float) (values : tensor) :
  in_range a = true ->
  Forall is_float32 values ->
  exists enc primary residual,
    new a = Ok enc /\
    encode enc values = Ok (primary, residual) /\
    decode enc primary residual = Ok values.
Proof.
  intros Ha Hv.
  destruct (new_in_range a Ha) as (p & Hp & Hn).
  eexists. eexists. eexists. split; [exact Hn|].
  split; [apply encode_elementwise|].
  rewrite decode_elementwise by (rewrite !length_map; reflexivity).
  cbn [primary_m_bits residual_m_bits].
  rewrite round_trip_map by (assumption || lia). reflexivity.
Qed.

Lemma C1_round_trip_exact_witness :
  in_range 0.5%float = true /\
  Forall is_float32 main_tensor /\
  exists enc primary residual,
    new 0.5%float = Ok enc /\
    encode enc main_tensor = Ok (primary, residual) /\
    decode enc primary residual = Ok main_tensor.
Proof.
  assert (Ha : in_range 0.5%float = true) by reflexivity.
  assert (Hv : Forall is_float32 main_tensor)
    by (unfold main_tensor;
        repeat (apply Forall_cons; [apply float32_check; reflexivity|]);
        apply Forall_nil).
  split; [exact Ha|]. split; [exact Hv|].
  exact (C1_round_trip_exact 0.5%float main_tensor Ha Hv).
Defined.

(** C2, a stream pair of differing lengths that decodes.  The codec built from aggression 0.5 decodes
    a two-element primary stream against a one-element residual stream:
    the lengths differ, yet no error is raised and two values come back,
    the single residual having been broadcast. *)
Lemma C2_decode_broadcast_counterexample :
  new 0.5%float = Ok enc_half /\
  length [522240; 1574400] <> length [0] /\
  decode enc_half [522240; 1574400] [0] = Ok [1069547520; 3224371200].
Proof.
  split; [reflexivity|]. split; [discriminate|]. reflexivity.
Qed.

(** C2, as the code behaves.  For every codec, [decode] on a primary and a residual
    stream of different lengths raises torch's size error, with no partial
    result, exactly when neither length is 1; a stream of length 1 is
    broadcast against the other and a full result is returned. *)
Theorem C2_decode_length_mismatch (enc : Encoding) (primary residual : tensor) :
  length primary <> length residual ->
  (decode enc primary residual = Raise RuntimeError
   <-> length primary <> 1%nat /\ length residual <> 1%nat) /\
  (length residual = 1%nat ->
   decode enc primary residual
   = Ok (map (fun x => decode1 (primary_m_bits enc) (residual_m_bits enc)
                         x (hd 0 residual)) primary)) /\
  (length primary = 1%nat ->
   decode enc primary residual
   = Ok (map (fun y => decode1 (primary_m_bits enc) (residual_m_bits enc)
                         (hd 0 primary) y) residual)).
Proof.
  intros N.
  assert (Hr : length residual = 1%nat ->
               decode enc primary residual
               = Ok (map (fun x => decode1 (primary_m_bits enc) (residual_m_bits enc)
                                     x (hd 0 residual)) primary)).
  { intros E. destruct residual as [ | y [ | y' rs]]; try discriminate.
    apply decode_broadcast_residual. }
  assert (Hp : length primary = 1%nat ->
               decode enc primary residual
               = Ok (map (fun y => decode1 (primary_m_bits enc) (residual_m_bits enc)
                                     (hd 0 primary) y) residual)).
  { intros E. destruct primary as [ | x [ | x' ps]]; try discriminate.
    apply decode_broadcast_primary. }
  split; [|split; assumption].
  split.
  - intros H. split; intros E.
    + rewrite (Hp E) in H. discriminate.
    + rewrite (Hr E) in H. discriminate.
  - intros [N1 N2]. apply decode_mismatch; assumption.
Qed.

Lemma C2_decode_length_mismatch_witness :
  length [522240; 1574400; 0] <> length [0; 0] /\
  decode enc_half [522240; 1574400; 0] [0; 0] = Raise RuntimeError.
Proof.
  assert (N : length [522240; 1574400; 0] <> length [0; 0]) by discriminate.
  split; [exact N|].
  apply (proj1 (C2_decode_length_mismatch enc_half [522240; 1574400; 0] [0; 0] N)).
  split; discriminate.
Defined.

(** C3. Construction raises [AssertionError] for every aggression for
    which [0.0 <= aggression <= 1.0] is false, in particular for -0.1 and
    1.1 (and for a NaN); no codec is returned, so nothing is clamped.  It
    succeeds for 0.0 and for 1.0. *)
Theorem C3_construction_checks_range :
  (forall a, in_range a = false -> new a = Raise AssertionError) /\
  new minus_tenth = Raise AssertionError /\
  new eleven_tenths = Raise AssertionError /\
  new nan = Raise AssertionError /\
  new 0%float = Ok enc_lossless /\
  new 1%float = Ok enc_coarse.
Proof.
  split; [exact new_out_of_range|].
  repeat split; reflexivity.
Qed.

(** C4. With aggression 0.5 the product [(1 - 0.5) * 23] is exactly 11.5,
    [round] takes it to 12, and the codec has 12 primary and 11 residual
    mantissa bits. *)
Theorem C4_midpoint_rounding :
  ((1 - 0.5) * 23)%float = 11.5%float /\
  py_round ((1 - 0.5) * 23)%float = Ok 12 /\
  exists enc,
    new 0.5%float = Ok enc /\
    primary_m_bits enc = 12 /\ residual_m_bits enc = 11.
Proof.
  split; [reflexivity|]. split; [reflexivity|].
  exists enc_half. repeat split; reflexivity.
Qed.

(** C5. For every aggression in [0.0, 1.0] the codec is constructed, its
    two bit counts are integers between 0 and 23 that add up to 23, and no
    sequence of calls to [encode], [decode] and [decode_low] changes
    them. *)
Theorem C5_split_invariant (a : float) :
  in_range a = true ->
  exists enc,
    new a = Ok enc /\
    primary_m_bits enc + residual_m_bits enc = 23 /\
    0 <= primary_m_bits enc <= 23 /\
    0 <= residual_m_bits enc <= 23 /\
    forall cs : list call,
      primary_m_bits (run enc cs) = primary_m_bits enc /\
      residual_m_bits (run enc cs) = residual_m_bits enc.
Proof.
  intros Ha. destruct (new_in_range a Ha) as (p & Hp & Hn).
  eexists. split; [exact Hn|]. cbn [primary_m_bits residual_m_bits].
  repeat split; try lia; rewrite run_self; reflexivity.
Qed.

Lemma C5_split_invariant_witness :
  in_range 0.5%float = true /\
  exists enc,
    new 0.5%float = Ok enc /\
    primary_m_bits enc + residual_m_bits enc = 23 /\
    0 <= primary_m_bits enc <= 23 /\
    0 <= residual_m_bits enc <= 23 /\
    forall cs : list call,
      primary_m_bits (run enc cs) = primary_m_bits enc /\
      residual_m_bits (run enc cs) = residual_m_bits enc.
Proof.
  assert (Ha : in_range 0.5%float = true) by reflexivity.
  split; [exact Ha|]. exact (C5_split_invariant 0.5%float Ha).
Defined.

(** C6. Aggression 0.0 gives 23 primary and 0 residual bits; every
    residual value [encode] produces is then 0 and [decode_low] of the
    primary stream alone returns the input bit for bit.  Aggression 1.0
    gives 0 primary and 23 residual bits; each primary value is then the
    sign bit above the eight exponent bits, with no mantissa bit. *)
Theorem C6_boundary_aggression :
  (new 0%float = Ok enc_lossless /\
   primary_m_bits enc_lossless = 23 /\ residual_m_bits enc_lossless = 0 /\
   forall values, Forall is_float32 values ->
     exists primary residual,
       encode enc_lossless values = Ok (primary, residual) /\
       Forall (fun y => y = 0) residual /\
       decode_low enc_lossless primary = Ok values) /\
  (new 1%float = Ok enc_coarse /\
   primary_m_bits enc_coarse = 0 /\ residual_m_bits enc_coarse = 23 /\
   forall values, Forall is_float32 values ->
     exists primary residual,
       encode enc_coarse values = Ok (primary, residual) /\
       primary
       = map (fun b => Z.lor (Z.shiftl (Z.land (Z.shiftr b 31) 1) 8)
                             (Z.land (Z.shiftr b 23) 255)) values).
Proof.
  split.
  - split; [reflexivity|]. split; [reflexivity|]. split; [reflexivity|].
    intros values Hv. eexists. eexists.
    split; [apply encode_elementwise|]. cbn [primary_m_bits residual_m_bits enc_lossless].
    split.
    + apply Forall_forall. intros y Hy. apply in_map_iff in Hy.
      destruct Hy as (b & <- & _). apply residual1_zero.
    + rewrite decode_low_elementwise.
      cbn [primary_m_bits residual_m_bits enc_lossless]. f_equal.
      rewrite map_map.
      induction Hv as [ | b l Hb Hl IH]; cbn [map]; [reflexivity|].
      rewrite decode_low1_lossless by exact Hb. f_equal. exact IH.
  - split; [reflexivity|]. split; [reflexivity|]. split; [reflexivity|].
    intros values Hv. eexists. eexists.
    split; [apply encode_elementwise|]. cbn [primary_m_bits residual_m_bits enc_coarse].
    induction Hv as [ | b l Hb Hl IH]; cbn [map]; [reflexivity|].
    rewrite primary1_sign_exponent by exact Hb. f_equal. exact IH.
Qed.

Lemma decode_low_vs_decode (p r : Z) (ps rs : list Z) :
  0 <= p <= 23 -> r = 23 - p -> length ps = length rs ->
  Forall (fun y => 0 <= y < 2 ^ r) rs ->
  (map (decode_low1 p r) ps
   = map (fun xy => decode1 p r (fst xy) (snd xy)) (combine ps rs)
   <-> Forall (fun y => y = 0) rs).
Proof.
  intros Hp Hr. revert rs.
  induction ps as [ | x ps IH]; intros [ | y rs] E Hy; try discriminate.
  - split; [constructor | reflexivity].
  - cbn [map combine fst snd]. inversion Hy as [ | y' rs' Hy0 Hrs]; subst y' rs'.
    injection E as E. specialize (IH rs E Hrs).
    pose proof (decode1_residual p r x y Hp Hr Hy0) as H1.
    split.
    + intros H. injection H as Hh Ht. constructor; [apply H1, Hh | apply IH, Ht].
    + intros H. inversion H as [ | y' rs' Hz Hzs]; subst y' rs'.
      f_equal; [apply H1, Hz | apply IH, Hzs].
Qed.

(** C7. For every constructed codec, every primary stream and every
    residual stream of the same length whose values fit the residual
    bits, [decode_low] of the primary stream equals [decode] of the pair
    exactly when every residual value is 0. *)
Theorem C7_decode_low_iff_zero_residual
  (a : float) (enc : Encoding) (primary residual : tensor) :
  new a = Ok enc ->
  length primary = length residual ->
  Forall (fun y => 0 <= y < 2 ^ residual_m_bits enc) residual ->
  (decode_low enc primary = decode enc primary residual
   <-> Forall (fun y => y = 0) residual).
Proof.
  intros Hn E Hy.
  destruct (new_inv a enc Hn) as (_ & _ & _ & Hp & Hr).
  rewrite decode_low_elementwise, (decode_elementwise enc primary residual E).
  rewrite <- (decode_low_vs_decode (primary_m_bits enc) (residual_m_bits enc)
                primary residual Hp Hr E Hy).
  split; [intros [= H]; exact H | intros ->; reflexivity].
Qed.

Lemma C7_decode_low_iff_zero_residual_witness :
  new 0.5%float = Ok enc_half /\
  length [522240; 1574400] = length [0; 5] /\
  Forall (fun y => 0 <= y < 2 ^ residual_m_bits enc_half) [0; 5] /\
  (decode_low enc_half [522240; 1574400] = decode enc_half [522240; 1574400] [0; 5]
   <-> Forall (fun y => y = 0) [0; 5]).
Proof.
  assert (Hn : new 0.5%float = Ok enc_half) by reflexivity.
  assert (E : length [522240; 1574400] = length [0; 5]) by reflexivity.
  assert (Hy : Forall (fun y => 0 <= y < 2 ^ residual_m_bits enc_half) [0; 5])
    by (repeat (apply Forall_cons; [cbn; lia|]); apply Forall_nil).
  split; [exact Hn|]. split; [exact E|]. split; [exact Hy|].
  exact (C7_decode_low_iff_zero_residual 0.5%float enc_half
           [522240; 1574400] [0; 5] Hn E Hy).
Defined.

(** C8, a negative primary element.  With aggression 0.0 the primary element of
    -2.75 (bit pattern 0xC0300000) is the negative [int32] -1070596096,
    not a value of [0, 2^32 - 1]. *)
Lemma C8_primary_negative_counterexample :
  new 0%float = Ok enc_lossless /\
  is_float32 3224371200 /\
  encode enc_lossless [3224371200] = Ok ([-1070596096], [0]) /\
  ~ 0 <= -1070596096 <= 2 ^ (9 + primary_m_bits enc_lossless) - 1.
Proof.
  split; [reflexivity|].
  split; [apply float32_check; reflexivity|].
  split; [reflexivity|].
  cbn. lia.
Qed.

(** C8, as the code behaves.  For every aggression in [0.0, 1.0] and every float32
    sequence, each primary element is an [int32] whose 32-bit pattern (its
    value modulo 2^32) lies in [0, 2^(9 + primary_m_bits) - 1]; the element
    itself lies in that range whenever [primary_m_bits] is below 23, and
    with 23 primary bits it is the input pattern read as a signed
    [int32]. *)
Theorem C8_primary_width (a : float) (values : tensor) :
  in_range a = true ->
  Forall is_float32 values ->
  exists enc primary residual,
    new a = Ok enc /\
    encode enc values = Ok (primary, residual) /\
    Forall (fun x => 0 <= x mod 2 ^ 32 <= 2 ^ (9 + primary_m_bits enc) - 1) primary /\
    (primary_m_bits enc < 23 ->
     Forall (fun x => 0 <= x <= 2 ^ (9 + primary_m_bits enc) - 1) primary) /\
    (primary_m_bits enc = 23 -> primary = map view_int32 values).
Proof.
  intros Ha Hv.
  destruct (new_in_range a Ha) as (p & Hp & Hn).
  eexists. eexists. eexists. split; [exact Hn|].
  split; [apply encode_elementwise|].
  cbn [primary_m_bits residual_m_bits].
  split; [|split].
  - apply Forall_forall. intros x Hx. apply in_map_iff in Hx.
    destruct Hx as (b & <- & _).
    pose proof (primary1_pattern p (23 - p) b Hp eq_refl). lia.
  - intros Hlt. apply Forall_forall. intros x Hx. apply in_map_iff in Hx.
    destruct Hx as (b & <- & _).
    pose proof (primary1_range p (23 - p) b ltac:(lia) eq_refl). lia.
  - intros ->. change (23 - 23) with 0.
    induction Hv as [ | b l Hb Hl IH]; cbn [map]; [reflexivity|].
    rewrite primary1_full by exact Hb. f_equal. exact IH.
Qed.

Lemma C8_primary_width_witness :
  in_range 0.5%float = true /\
  Forall is_float32 main_tensor /\
  exists enc primary residual,
    new 0.5%float = Ok enc /\
    encode enc main_tensor = Ok (primary, residual) /\
    Forall (fun x => 0 <= x mod 2 ^ 32 <= 2 ^ (9 + primary_m_bits enc) - 1) primary /\
    (primary_m_bits enc < 23 ->
     Forall (fun x => 0 <= x <= 2 ^ (9 + primary_m_bits enc) - 1) primary) /\
    (primary_m_bits enc = 23 -> primary = map view_int32 main_tensor).
Proof.
  assert (Ha : in_range 0.5%float = true) by reflexivity.
  assert (Hv : Forall is_float32 main_tensor)
    by (unfold main_tensor;
        repeat (apply Forall_cons; [apply float32_check; reflexivity|]);
        apply Forall_nil).
  split; [exact Ha|]. split; [exact Hv|].
  exact (C8_primary_width 0.5%float main_tensor Ha Hv).
Defined.

(** C9. Constructing the codec without an argument uses aggression 0.5:
    the codec has 12 primary and 11 residual mantissa bits. *)
Theorem C9_default_aggression :
  Encoding_init None = new 0.5%float /\
  exists enc,
    Encoding_init None = Ok enc /\
    aggression enc = 0.5%float /\
    primary_m_bits enc = 12 /\ residual_m_bits enc = 11.
Proof.
  split; [reflexivity|]. exists enc_half. repeat split; reflexivity.
Qed.

Lemma fields_agree (p : Z) (ps1 ps2 : list Z) :
  0 <= p <= 23 ->
  Forall2 (fun x y => x mod 2 ^ (9 + p) = y mod 2 ^ (9 + p)) ps1 ps2 ->
  t_and (map to_int32 ps1) (Z.shiftl 1 p - 1)
  = t_and (map to_int32 ps2) (Z.shiftl 1 p - 1) /\
  t_and (t_shr (map to_int32 ps1) p) 255
  = t_and (t_shr (map to_int32 ps2) p) 255 /\
  t_and (t_shr (map to_int32 ps1) (8 + p)) 1
  = t_and (t_shr (map to_int32 ps2) (8 + p)) 1.
Proof.
  intros Hp H. unfold t_and, t_shr.
  induction H as [ | x y l1 l2 Hxy Hl IH]; cbn [map]; [repeat split|].
  destruct IH as (IH1 & IH2 & IH3).
  assert (Hb : forall j, 0 <= j < 9 + p -> Z.testbit x j = Z.testbit y j)
    by (intros j Hj; apply (low_bits_agree x y (9 + p)); assumption).
  repeat split; (f_equal; [|assumption]);
    apply Z.bits_inj'; intros i Hi; unfold shr32, to_int32; to_bits.
  - destruct (Z.lt_ge_cases i p); decide_cmp; bool_simpl; try reflexivity.
    apply Hb; lia.
  - destruct (Z.lt_ge_cases i 8); decide_cmp; bool_simpl; try reflexivity.
    apply Hb; lia.
  - destruct (Z.lt_ge_cases i 1); decide_cmp; bool_simpl; try reflexivity.
    apply Hb; lia.
Qed.

(** C10. For every constructed codec, two primary streams whose elements
    agree on their low [9 + primary_m_bits] bits are decoded alike, bit for
    bit, by [decode] (against one residual stream) and by [decode_low],
    whatever higher bits the elements carry. *)
Theorem C10_decode_reads_low_bits
  (a : float) (enc : Encoding) (primary1 primary2 residual : tensor) :
  new a = Ok enc ->
  Forall2 (fun x y => x mod 2 ^ (9 + primary_m_bits enc)
                      = y mod 2 ^ (9 + primary_m_bits enc)) primary1 primary2 ->
  decode enc primary1 residual = decode enc primary2 residual /\
  decode_low enc primary1 = decode_low enc primary2.
Proof.
  intros Hn H.
  destruct (new_inv a enc Hn) as (_ & _ & _ & Hp & _).
  destruct (fields_agree (primary_m_bits enc) primary1 primary2 Hp H)
    as (Hm & He & Hs).
  unfold decode, decode_low. rewrite Hm, He, Hs. split; reflexivity.
Qed.

Lemma C10_decode_reads_low_bits_witness :
  new 0.5%float = Ok enc_half /\
  Forall2 (fun x y => x mod 2 ^ (9 + primary_m_bits enc_half)
                      = y mod 2 ^ (9 + primary_m_bits enc_half))
    [522240] [1099514247168] /\
  decode enc_half [522240] [0] = decode enc_half [1099514247168] [0] /\
  decode_low enc_half [522240] = decode_low enc_half [1099514247168].
Proof.
  assert (Hn : new 0.5%float = Ok enc_half) by reflexivity.
  assert (H : Forall2 (fun x y => x mod 2 ^ (9 + primary_m_bits enc_half)
                                  = y mod 2 ^ (9 + primary_m_bits enc_half))
                [522240] [1099514247168])
    by (repeat constructor).
  split; [exact Hn|]. split; [exact H|].
  exact (C10_decode_reads_low_bits 0.5%float enc_half
           [522240] [1099514247168] [0] Hn H).
Defined.

(** ** Further properties of the encoding *)

Lemma small_bits (y n i : Z) :
  0 <= y < 2 ^ n -> n <= i -> Z.testbit y i = false.
Proof.
  intros Hy Hi. destruct (Z.le_gt_cases 0 n) as [Hn | Hn].
  - rewrite <- (Z.mod_small y (2 ^ n)) by exact Hy.
    apply Z.mod_pow2_bits_high; lia.
  - rewrite Z.pow_neg_r in Hy by lia. lia.
Qed.

(** Bits 9+p .. 31 of a well-formed primary element are clear. *)
Lemma primary_high_bits (p x i : Z) :
  0 <= p -> 0 <= x mod 2 ^ 32 < 2 ^ (9 + p) -> 9 + p <= i < 32 ->
  Z.testbit x i = false.
Proof.
  intros Hp Hx Hi.
  rewrite <- (Z.mod_pow2_bits_low x 32 i) by lia.
  apply (small_bits _ (9 + p)); [exact Hx | lia].
Qed.

Lemma truncate_bit (b r i : Z) :
  0 <= r -> 0 <= i ->
  Z.testbit (b - b mod 2 ^ r) i = negb (i <? r) && Z.testbit b i.
Proof.
  intros Hr Hi.
  assert (E : b - b mod 2 ^ r = Z.shiftl (Z.shiftr b r) r).
  { rewrite Z.shiftl_mul_pow2, Z.shiftr_div_pow2 by lia.
    pose proof (Z.div_mod b (2 ^ r)) as H.
    assert (0 < 2 ^ r) by (apply Z.pow_pos_nonneg; lia). lia. }
  rewrite E, shiftl_bit, shiftr_bit.
  destruct (Z.ltb_spec i r); decide_cmp; bool_simpl; same_bit.
Qed.

(** Decoding the primary element alone clears the residual bits of the
    input and keeps all the others. *)
Lemma decode_low1_truncates (p r b : Z) :
  0 <= p <= 23 -> r = 23 - p -> is_float32 b ->
  decode_low1 p r (primary1 p r b) = b - b mod 2 ^ r.
Proof.
  intros Hp Hr Hb. apply Z.bits_inj'. intros i Hi.
  rewrite truncate_bit by lia.
  destruct (Z.le_gt_cases 32 i) as [Hhi | Hlo].
  - rewrite (testbit_float32_high b i Hb Hhi).
    unfold decode_low1. rewrite testbit_view_float32.
    rewrite (proj2 (Z.ltb_ge i 32)) by lia. rewrite Bool.andb_false_r. reflexivity.
  - unfold_ops. to_bits.
    assert (Hc : i < r \/ r <= i < 23 \/ 23 <= i < 31 \/ i = 31) by lia.
    destruct Hc as [Hc | [Hc | [Hc | Hc]]]; decide_cmp; bool_simpl; same_bit.
Qed.

(** [decode] ORs the residual's 32-bit pattern onto the low-precision
    decoding, without masking it. *)
Lemma decode1_lor (p r x y : Z) :
  decode1 p r x y = Z.lor (decode_low1 p r x) (y mod 2 ^ 32).
Proof.
  apply Z.bits_inj'. intros i Hi.
  unfold decode1, decode_low1, to_int32.
  change (y mod 2 ^ 32) with (view_float32 y).
  to_bits.
  destruct (Z.lt_ge_cases i 32); decide_cmp; bool_simpl; try reflexivity.
  rewrite Bool.orb_assoc. reflexivity.
Qed.

(** Encoding what [decode] returned gives back well-formed streams. *)
Lemma primary1_decode1 (p r x y : Z) :
  0 <= p <= 23 -> r = 23 - p ->
  - 2 ^ 31 <= x < 2 ^ 31 -> 0 <= x mod 2 ^ 32 < 2 ^ (9 + p) ->
  0 <= y < 2 ^ r ->
  primary1 p r (decode1 p r x y) = x.
Proof.
  intros Hp Hr Hx Hm Hy. apply Z.bits_inj'. intros i Hi.
  unfold_ops. to_bits.
  assert (Hc : i < p \/ p <= i < p + 8 \/ i = p + 8 \/ p + 8 < i) by lia.
  destruct Hc as [Hc | [Hc | [Hc | Hc]]]; decide_cmp; bool_simpl;
    repeat match goal with
      | |- context [Z.testbit y ?j] => rewrite (small_bits y r j Hy) by lia
      end; bool_simpl.
  - same_bit.
  - same_bit.
  - same_bit.
  - symmetry. destruct (Z.lt_ge_cases i 32) as [Hlt | Hge].
    + assert (Hz : Z.testbit x i = false)
        by (apply (primary_high_bits p x i); lia || assumption).
      rewrite Hz. destruct (Z.eq_dec p 23) as [-> | Hne]; [lia|].
      decide_cmp. bool_simpl. reflexivity.
    + rewrite (int32_high_bits x i Hx) by lia.
      destruct (Z.eq_dec p 23) as [-> | Hne].
      * decide_cmp. bool_simpl. same_bit.
      * rewrite (primary_high_bits p x 31) by (lia || assumption).
        decide_cmp. bool_simpl. reflexivity.
Qed.

Lemma residual1_decode1 (p r x y : Z) :
  0 <= p <= 23 -> r = 23 - p -> 0 <= y < 2 ^ r ->
  residual1 r (decode1 p r x y) = y.
Proof.
  intros Hp Hr Hy. apply Z.bits_inj'. intros i Hi.
  unfold_ops. to_bits.
  destruct (Z.lt_ge_cases i r) as [Hlt | Hge]; decide_cmp; bool_simpl.
  - same_bit.
  - symmetry. apply (small_bits y r i Hy Hge).
Qed.

Lemma residual1_mod (r b : Z) :
  0 <= r <= 23 -> is_float32 b -> residual1 r b = b mod 2 ^ r.
Proof.
  intros Hr Hb. apply Z.bits_inj'. intros i Hi.
  unfold_ops. to_bits.
  destruct (Z.lt_ge_cases i r) as [Hlt | Hge].
  - rewrite Z.mod_pow2_bits_low by lia. decide_cmp. bool_simpl. same_bit.
  - rewrite Z.mod_pow2_bits_high by lia. decide_cmp. bool_simpl. reflexivity.
Qed.

Lemma truncate_keeps_exponent (r b : Z) :
  0 <= r <= 23 -> Z.shiftr (b - b mod 2 ^ r) 23 = Z.shiftr b 23.
Proof.
  intros Hr. apply Z.bits_inj'. intros i Hi.
  rewrite !shiftr_bit, truncate_bit by lia.
  decide_cmp. bool_simpl. reflexivity.
Qed.

Lemma primary1_int32 (p r b : Z) :
  0 <= p <= 23 -> r = 23 - p -> - 2 ^ 31 <= primary1 p r b < 2 ^ 31.
Proof.
  intros Hp Hr. destruct (Z.eq_dec p 23) as [-> | Hne].
  - assert (E : primary1 23 r b = wrap32 (primary1 23 r b)).
    { apply Z.bits_inj'. intros i Hi. rewrite wrap32_bit.
      unfold_ops. to_bits.
      destruct (Z.lt_ge_cases i 31); decide_cmp; bool_simpl; same_bit. }
    rewrite E. apply wrap32_range.
  - pose proof (primary1_range p r b ltac:(lia) Hr) as H.
    assert (2 ^ (9 + p) <= 2 ^ 31) by (apply Z.pow_le_mono_r; lia). lia.
Qed.

Lemma decode_low1_zero_residual (p r x : Z) : decode_low1 p r x = decode1 p r x 0.
Proof. rewrite decode1_lor. cbn. rewrite Z.lor_0_r. reflexivity. Qed.

Lemma decode1_float32 (p r x y : Z) : is_float32 (decode1 p r x y).
Proof. unfold decode1, view_float32, is_float32. apply Z.mod_pos_bound. reflexivity. Qed.

Lemma decode_low1_clear (p r x : Z) :
  0 <= p <= 23 -> r = 23 - p -> decode_low1 p r x mod 2 ^ r = 0.
Proof.
  intros Hp Hr. apply Z.bits_inj'. intros i Hi. rewrite Z.bits_0.
  destruct (Z.lt_ge_cases i r) as [Hlt | Hge].
  - rewrite Z.mod_pow2_bits_low by lia.
    unfold decode_low1. rewrite testbit_view_float32.
    rewrite (decode_low1_low_bits p r x i Hp Hr) by lia. apply Bool.andb_false_r.
  - apply Z.mod_pow2_bits_high; lia.
Qed.

Lemma mod_pow2_le (b r1 r2 : Z) :
  0 <= b -> 0 <= r2 <= r1 -> b mod 2 ^ r2 <= b mod 2 ^ r1.
Proof.
  intros Hb Hr.
  assert (H1 : 0 < 2 ^ r1) by (apply Z.pow_pos_nonneg; lia).
  assert (H2 : 0 < 2 ^ r2) by (apply Z.pow_pos_nonneg; lia).
  assert (Hd : (2 ^ r2 | 2 ^ r1)).
  { exists (2 ^ (r1 - r2)). rewrite <- Z.pow_add_r by lia. f_equal; lia. }
  rewrite <- (Z.mod_mod_divide b (2 ^ r1) (2 ^ r2) Hd).
  apply Z.mod_le; [apply Z.mod_pos_bound; assumption | assumption].
Qed.

Lemma Forall_float32_main : Forall is_float32 main_tensor.
Proof.
  unfold main_tensor.
  repeat (apply Forall_cons; [apply float32_check; reflexivity|]).
  apply Forall_nil.
Qed.

(** X1. For every binary64 value, NaN and the infinities included,
    [__init__] either returns a codec that stores the aggression it was
    given, 23 as [m_bits] and [m_bits - primary_m_bits] as
    [residual_m_bits], or raises [AssertionError]; [round] never raises. *)
Theorem X1_init_outcome (a : float) :
  (in_range a = true /\
   exists enc, new a = Ok enc /\ aggression enc = a /\ m_bits enc = 23 /\
               residual_m_bits enc = m_bits enc - primary_m_bits enc) \/
  (in_range a = false /\ new a = Raise AssertionError).
Proof.
  destruct (in_range a) eqn:E.
  - left. split; [reflexivity|].
    destruct (new_in_range a E) as (p & Hp & Hn).
    eexists. split; [exact Hn|]. repeat split.
  - right. split; [reflexivity | apply new_out_of_range, E].
Qed.

(** X2. [encode] of a constructed codec never raises: it returns two
    streams of the input's length, and every residual element lies in
    [0, 2^residual_m_bits - 1]. *)
Theorem X2_encode_shape (a : float) (enc : Encoding) (values : tensor) :
  new a = Ok enc ->
  exists primary residual,
    encode enc values = Ok (primary, residual) /\
    length primary = length values /\
    length residual = length values /\
    Forall (fun y => 0 <= y <= 2 ^ residual_m_bits enc - 1) residual.
Proof.
  intros Hn. destruct (new_inv a enc Hn) as (_ & _ & _ & Hp & Hr).
  eexists. eexists. split; [apply encode_elementwise|].
  rewrite !length_map. repeat split.
  apply Forall_forall. intros y Hy. apply in_map_iff in Hy.
  destruct Hy as (b & <- & _).
  pose proof (residual1_range (residual_m_bits enc) b ltac:(lia)). lia.
Qed.

Lemma X2_encode_shape_witness :
  new 0.5%float = Ok enc_half /\
  exists primary residual,
    encode enc_half main_tensor = Ok (primary, residual) /\
    length primary = length main_tensor /\
    length residual = length main_tensor /\
    Forall (fun y => 0 <= y <= 2 ^ residual_m_bits enc_half - 1) residual.
Proof.
  assert (Hn : new 0.5%float = Ok enc_half) by reflexivity.
  split; [exact Hn|]. exact (X2_encode_shape 0.5%float enc_half main_tensor Hn).
Defined.

(** X3. For a constructed codec and float32 input, [decode_low] of the
    primary stream is the input with its low [residual_m_bits] bits
    cleared, the residual stream holds exactly those cleared bits, and
    sign and exponent (the bits from 23 up) are those of the input. *)
Theorem X3_decode_low_truncates (a : float) (enc : Encoding) (values : tensor) :
  new a = Ok enc ->
  Forall is_float32 values ->
  exists primary residual low,
    encode enc values = Ok (primary, residual) /\
    decode_low enc primary = Ok low /\
    low = map (fun b => b - b mod 2 ^ residual_m_bits enc) values /\
    residual = map (fun b => b mod 2 ^ residual_m_bits enc) values /\
    map (fun v => Z.shiftr v 23) low = map (fun b => Z.shiftr b 23) values.
Proof.
  intros Hn Hv. destruct (new_inv a enc Hn) as (_ & _ & _ & Hp & Hr).
  eexists. eexists. eexists. split; [apply encode_elementwise|].
  split; [apply decode_low_elementwise|].
  rewrite !map_map.
  repeat split; induction Hv as [ | b l Hb Hl IH]; cbn [map]; try reflexivity;
    (f_equal; [|exact IH]).
  - apply decode_low1_truncates; assumption.
  - apply residual1_mod; [lia | assumption].
  - rewrite decode_low1_truncates by assumption.
    apply truncate_keeps_exponent. lia.
Qed.

Lemma X3_decode_low_truncates_witness :
  new 0.5%float = Ok enc_half /\
  Forall is_float32 main_tensor /\
  exists primary residual low,
    encode enc_half main_tensor = Ok (primary, residual) /\
    decode_low enc_half primary = Ok low /\
    low = map (fun b => b - b mod 2 ^ residual_m_bits enc_half) main_tensor /\
    residual = map (fun b => b mod 2 ^ residual_m_bits enc_half) main_tensor /\
    map (fun v => Z.shiftr v 23) low = map (fun b => Z.shiftr b 23) main_tensor.
Proof.
  assert (Hn : new 0.5%float = Ok enc_half) by reflexivity.
  split; [exact Hn|]. split; [exact Forall_float32_main|].
  exact (X3_decode_low_truncates 0.5%float enc_half main_tensor Hn Forall_float32_main).
Defined.

(** X4. For a constructed codec and streams of one length, [decode]
    returns the low-precision decoding of the primary stream with the
    residual's 32-bit pattern ORed onto it, position by position: the
    residual is not masked to [residual_m_bits] bits. *)
Theorem X4_decode_or_residual
  (a : float) (enc : Encoding) (primary residual : tensor) :
  new a = Ok enc ->
  length primary = length residual ->
  exists low,
    decode_low enc primary = Ok low /\
    decode enc primary residual
    = Ok (zip_or low (map (fun y => y mod 2 ^ 32) residual)).
Proof.
  intros _ E. eexists. split; [apply decode_low_elementwise|].
  rewrite (decode_elementwise enc primary residual E), zip_or_map2.
  apply f_equal. apply map_ext. intros xy. apply decode1_lor.
Qed.

Lemma X4_decode_or_residual_witness :
  new 0.5%float = Ok enc_half /\
  length [522240; 1574400] = length [5; 4096] /\
  exists low,
    decode_low enc_half [522240; 1574400] = Ok low /\
    decode enc_half [522240; 1574400] [5; 4096]
    = Ok (zip_or low (map (fun y => y mod 2 ^ 32) [5; 4096])).
Proof.
  assert (Hn : new 0.5%float = Ok enc_half) by reflexivity.
  assert (E : length [522240; 1574400] = length [5; 4096]) by reflexivity.
  split; [exact Hn|]. split; [exact E|].
  exact (X4_decode_or_residual 0.5%float enc_half [522240; 1574400] [5; 4096] Hn E).
Defined.

(** X5. For a constructed codec and float32 input, encoding the
    low-precision decoding again gives the same primary stream and an
    all-zero residual stream. *)
Theorem X5_reencode_low (a : float) (enc : Encoding) (values : tensor) :
  new a = Ok enc ->
  Forall is_float32 values ->
  exists primary residual low,
    encode enc values = Ok (primary, residual) /\
    decode_low enc primary = Ok low /\
    encode enc low = Ok (primary, map (fun _ => 0) values).
Proof.
  intros Hn Hv. destruct (new_inv a enc Hn) as (_ & _ & _ & Hp & Hr).
  eexists. eexists. eexists. split; [apply encode_elementwise|].
  split; [apply decode_low_elementwise|].
  rewrite encode_elementwise, !map_map. apply f_equal. apply f_equal2.
  - apply map_ext. intros b.
    rewrite decode_low1_zero_residual.
    assert (H0 : 0 <= 0 < 2 ^ residual_m_bits enc)
      by (split; [lia | apply Z.pow_pos_nonneg; lia]).
    apply primary1_decode1; try assumption.
    + apply primary1_int32; assumption.
    + apply primary1_pattern; assumption.
  - apply map_ext. intros b.
    rewrite decode_low1_zero_residual.
    apply (residual1_decode1 (primary_m_bits enc)); try assumption.
    split; [lia | apply Z.pow_pos_nonneg; lia].
Qed.

Lemma X5_reencode_low_witness :
  new 0.5%float = Ok enc_half /\
  Forall is_float32 main_tensor /\
  exists primary residual low,
    encode enc_half main_tensor = Ok (primary, residual) /\
    decode_low enc_half primary = Ok low /\
    encode enc_half low = Ok (primary, map (fun _ => 0) main_tensor).
Proof.
  assert (Hn : new 0.5%float = Ok enc_half) by reflexivity.
  split; [exact Hn|]. split; [exact Forall_float32_main|].
  exact (X5_reencode_low 0.5%float enc_half main_tensor Hn Forall_float32_main).
Defined.

(** X6. For a constructed codec, a primary stream of [int32] elements
    whose 32-bit patterns fit [9 + primary_m_bits] bits and a residual
    stream of the same length with values below [2^residual_m_bits]:
    [decode] returns float32 patterns, and [encode] of them returns the
    two streams. *)
Theorem X6_encode_after_decode
  (a : float) (enc : Encoding) (primary residual : tensor) :
  new a = Ok enc ->
  length primary = length residual ->
  Forall (fun x => - 2 ^ 31 <= x < 2 ^ 31 /\
                   0 <= x mod 2 ^ 32 < 2 ^ (9 + primary_m_bits enc)) primary ->
  Forall (fun y => 0 <= y < 2 ^ residual_m_bits enc) residual ->
  exists values,
    decode enc primary residual = Ok values /\
    Forall is_float32 values /\
    encode enc values = Ok (primary, residual).
Proof.
  intros Hn E Hx Hy. destruct (new_inv a enc Hn) as (_ & _ & _ & Hp & Hr).
  eexists. split; [apply decode_elementwise, E|].
  split.
  - apply Forall_forall. intros v Hv. apply in_map_iff in Hv.
    destruct Hv as (xy & <- & _). apply decode1_float32.
  - rewrite encode_elementwise, !map_map.
    set (p := primary_m_bits enc) in *. set (r := residual_m_bits enc) in *.
    clearbody p r. clear Hn. revert residual E Hy.
    induction Hx as [ | x ps [Hx1 Hx2] Hps IH]; intros [ | y rs] E Hy;
      try discriminate; [reflexivity|].
    inversion Hy as [ | y' rs' Hy0 Hrs]; subst y' rs'.
    injection E as E. specialize (IH rs E Hrs). injection IH as IH1 IH2.
    cbn [combine map fst snd].
    rewrite primary1_decode1, (residual1_decode1 p), IH1, IH2 by assumption.
    reflexivity.
Qed.

Lemma X6_encode_after_decode_witness :
  new 0.5%float = Ok enc_half /\
  length [522240; 1574400] = length [5; 2047] /\
  Forall (fun x => - 2 ^ 31 <= x < 2 ^ 31 /\
                   0 <= x mod 2 ^ 32 < 2 ^ (9 + primary_m_bits enc_half))
    [522240; 1574400] /\
  Forall (fun y => 0 <= y < 2 ^ residual_m_bits enc_half) [5; 2047] /\
  exists values,
    decode enc_half [522240; 1574400] [5; 2047] = Ok values /\
    Forall is_float32 values /\
    encode enc_half values = Ok ([522240; 1574400], [5; 2047]).
Proof.
  assert (Hn : new 0.5%float = Ok enc_half) by reflexivity.
  assert (E : length [522240; 1574400] = length [5; 2047]) by reflexivity.
  assert (Hx : Forall (fun x => - 2 ^ 31 <= x < 2 ^ 31 /\
                   0 <= x mod 2 ^ 32 < 2 ^ (9 + primary_m_bits enc_half))
                 [522240; 1574400])
    by (repeat (apply Forall_cons; [cbn; lia|]); apply Forall_nil).
  assert (Hy : Forall (fun y => 0 <= y < 2 ^ residual_m_bits enc_half) [5; 2047])
    by (repeat (apply Forall_cons; [cbn; lia|]); apply Forall_nil).
  split; [exact Hn|]. split; [exact E|]. split; [exact Hx|]. split; [exact Hy|].
  exact (X6_encode_after_decode 0.5%float enc_half
           [522240; 1574400] [5; 2047] Hn E Hx Hy).
Defined.

(** X7. For a constructed codec and any primary stream, [decode] against
    the one-element residual stream [0] is [decode_low]: the zero is
    broadcast over the whole stream. *)
Theorem X7_decode_zero_broadcast (a : float) (enc : Encoding) (primary : tensor) :
  new a = Ok enc ->
  decode enc primary [0] = decode_low enc primary.
Proof.
  intros _. rewrite decode_broadcast_residual, decode_low_elementwise.
  apply f_equal. apply map_ext. intros x. symmetry. apply decode_low1_zero_residual.
Qed.

Lemma X7_decode_zero_broadcast_witness :
  new 0.5%float = Ok enc_half /\
  decode enc_half [522240; 1574400; 0] [0] = decode_low enc_half [522240; 1574400; 0].
Proof.
  assert (Hn : new 0.5%float = Ok enc_half) by reflexivity.
  split; [exact Hn|].
  exact (X7_decode_zero_broadcast 0.5%float enc_half [522240; 1574400; 0] Hn).
Defined.

(** X8. For a constructed codec and any primary stream, whatever integers
    it holds, [decode_low] never raises: it returns one float32 pattern
    per element, each with its low [residual_m_bits] bits clear. *)
Theorem X8_decode_low_shape (a : float) (enc : Encoding) (primary : tensor) :
  new a = Ok enc ->
  exists low,
    decode_low enc primary = Ok low /\
    length low = length primary /\
    Forall (fun v => is_float32 v /\ v mod 2 ^ residual_m_bits enc = 0) low.
Proof.
  intros Hn. destruct (new_inv a enc Hn) as (_ & _ & _ & Hp & Hr).
  eexists. split; [apply decode_low_elementwise|].
  split; [apply length_map|].
  apply Forall_forall. intros v Hv. apply in_map_iff in Hv.
  destruct Hv as (x & <- & _). split.
  - rewrite decode_low1_zero_residual. apply decode1_float32.
  - apply decode_low1_clear; assumption.
Qed.

Lemma X8_decode_low_shape_witness :
  new 0.5%float = Ok enc_half /\
  exists low,
    decode_low enc_half [522240; -7; 1099514247168] = Ok low /\
    length low = length [522240; -7; 1099514247168] /\
    Forall (fun v => is_float32 v /\ v mod 2 ^ residual_m_bits enc_half = 0) low.
Proof.
  assert (Hn : new 0.5%float = Ok enc_half) by reflexivity.
  split; [exact Hn|].
  exact (X8_decode_low_shape 0.5%float enc_half [522240; -7; 1099514247168] Hn).
Defined.

(** X9. For a constructed codec and float32 input, [decode_low] of the
    primary stream returns the input itself exactly when every input
    pattern has its low [residual_m_bits] bits clear. *)
Theorem X9_decode_low_exact_iff (a : float) (enc : Encoding) (values : tensor) :
  new a = Ok enc ->
  Forall is_float32 values ->
  exists primary residual,
    encode enc values = Ok (primary, residual) /\
    (decode_low enc primary = Ok values
     <-> Forall (fun b => b mod 2 ^ residual_m_bits enc = 0) values).
Proof.
  intros Hn Hv. destruct (new_inv a enc Hn) as (_ & _ & _ & Hp & Hr).
  eexists. eexists. split; [apply encode_elementwise|].
  rewrite decode_low_elementwise, map_map.
  set (p := primary_m_bits enc) in *. set (r := residual_m_bits enc) in *.
  clearbody p r. clear Hn.
  induction Hv as [ | b l Hb Hl IH]; cbn [map].
  - split; [constructor | reflexivity].
  - rewrite decode_low1_truncates by assumption.
    destruct IH as [IH1 IH2]. split.
    + intros [= H1 H2]. constructor; [lia|]. apply IH1. rewrite H2. reflexivity.
    + intros H. inversion H as [ | b' l' Hz Hzs]; subst b' l'.
      specialize (IH2 Hzs). injection IH2 as IH2.
      rewrite IH2, Hz, Z.sub_0_r. reflexivity.
Qed.

Lemma X9_decode_low_exact_iff_witness :
  new 0.5%float = Ok enc_half /\
  Forall is_float32 main_tensor /\
  exists primary residual,
    encode enc_half main_tensor = Ok (primary, residual) /\
    (decode_low enc_half primary = Ok main_tensor
     <-> Forall (fun b => b mod 2 ^ residual_m_bits enc_half = 0) main_tensor).
Proof.
  assert (Hn : new 0.5%float = Ok enc_half) by reflexivity.
  split; [exact Hn|]. split; [exact Forall_float32_main|].
  exact (X9_decode_low_exact_iff 0.5%float enc_half main_tensor Hn Forall_float32_main).
Defined.

(** X10. For two constructed codecs, the first with no more primary bits
    than the second, and float32 input: position by position the
    low-precision decoding of the first is at most that of the second,
    which is at most the input pattern. *)
Theorem X10_more_primary_bits_closer
  (a1 a2 : float) (enc1 enc2 : Encoding) (values : tensor) :
  new a1 = Ok enc1 -> new a2 = Ok enc2 ->
  primary_m_bits enc1 <= primary_m_bits enc2 ->
  Forall is_float32 values ->
  exists ps1 rs1 ps2 rs2 low1 low2,
    encode enc1 values = Ok (ps1, rs1) /\ decode_low enc1 ps1 = Ok low1 /\
    encode enc2 values = Ok (ps2, rs2) /\ decode_low enc2 ps2 = Ok low2 /\
    Forall2 Z.le low1 low2 /\ Forall2 Z.le low2 values.
Proof.
  intros Hn1 Hn2 Hle Hv.
  destruct (new_inv a1 enc1 Hn1) as (_ & _ & _ & Hp1 & Hr1).
  destruct (new_inv a2 enc2 Hn2) as (_ & _ & _ & Hp2 & Hr2).
  do 6 eexists.
  split; [apply encode_elementwise|]. split; [apply decode_low_elementwise|].
  split; [apply encode_elementwise|]. split; [apply decode_low_elementwise|].
  rewrite !map_map.
  split; induction Hv as [ | b l Hb Hl IH]; cbn [map]; constructor; try exact IH.
  - rewrite !decode_low1_truncates by assumption.
    pose proof (mod_pow2_le b (residual_m_bits enc1) (residual_m_bits enc2)
                  (proj1 Hb) ltac:(lia)). lia.
  - rewrite decode_low1_truncates by assumption.
    pose proof (Z.mod_pos_bound b (2 ^ residual_m_bits enc2)
                  ltac:(apply Z.pow_pos_nonneg; lia)). lia.
Qed.

Lemma X10_more_primary_bits_closer_witness :
  new 1%float = Ok enc_coarse /\ new 0.5%float = Ok enc_half /\
  primary_m_bits enc_coarse <= primary_m_bits enc_half /\
  Forall is_float32 main_tensor /\
  exists ps1 rs1 ps2 rs2 low1 low2,
    encode enc_coarse main_tensor = Ok (ps1, rs1) /\
    decode_low enc_coarse ps1 = Ok low1 /\
    encode enc_half main_tensor = Ok (ps2, rs2) /\
    decode_low enc_half ps2 = Ok low2 /\
    Forall2 Z.le low1 low2 /\ Forall2 Z.le low2 main_tensor.
Proof.
  assert (Hn1 : new 1%float = Ok enc_coarse) by reflexivity.
  assert (Hn2 : new 0.5%float = Ok enc_half) by reflexivity.
  assert (Hle : primary_m_bits enc_coarse <= primary_m_bits enc_half) by (cbn; lia).
  split; [exact Hn1|]. split; [exact Hn2|]. split; [exact Hle|].
  split; [exact Forall_float32_main|].
  exact (X10_more_primary_bits_closer 1%float 0.5%float enc_coarse enc_half
           main_tensor Hn1 Hn2 Hle Forall_float32_main).
Defined.
